(** * Snake Lite: the game-state logic of [src/main.py]

    A shallow embedding of the grid-based snake game.  Grid cells and
    directions are pairs of integers, the float fields are binary64 primitive
    floats (Python's [float]), the snake is a list with the head at index 0.
    The two sources of nondeterminism are made explicit: [random.randrange]
    reads a tape of raw integers, and the window events (frame updates and key
    presses) are a datatype fed to [handle]. *)

From Stdlib Require Import Strings.String Numbers.DecimalString.
From Stdlib Require Import ZArith List Bool Lia.
From Stdlib Require Import Floats.PrimFloat Floats.SpecFloat Floats.FloatOps.
From Stdlib Require Floats.FloatAxioms.
Import ListNotations.

Set Warnings "-inexact-float".

Open Scope Z_scope.

(** ** Configuration constants *)

Definition SCREEN_WIDTH : Z := 800.
Definition SCREEN_HEIGHT : Z := 600.
Definition CELL_SIZE : Z := 20.
Definition UI_HEIGHT : Z := 50.
Definition GRID_COLS : Z := SCREEN_WIDTH / CELL_SIZE.
Definition GRID_ROWS : Z := (SCREEN_HEIGHT - UI_HEIGHT) / CELL_SIZE.

Definition MOVE_INTERVAL_START : float := 0.20%float.
Definition MOVE_INTERVAL_MIN : float := 0.06%float.

(** ** Python numbers *)

(** Conversion of a Python [int] to [float]: the nearest binary64 value, ties
    to even (exact below 2^53).  Integers past the binary64 range, where
    Python raises [OverflowError], do not occur in reachable states, whose
    score is at most the number of grid cells; the statements made of
    arbitrary states that convert the score assume it below 2^1000. *)
Definition float_of_int (z : Z) : float :=
  SF2Prim (binary_normalize prec emax z 0 false).

(** The builtins [min(a, b)] and [max(a, b)] on two arguments: the first
    argument is kept unless the second is strictly better. *)
Definition py_min (a b : float) : float := if (b <? a)%float then b else a.
Definition py_max (a b : float) : float := if (a <? b)%float then b else a.

Definition clamp (value min_value max_value : float) : float :=
  py_max min_value (py_min value max_value).

(** ** Positions and membership *)

Definition Position : Type := (Z * Z)%type.

Definition pos_eqb (p q : Position) : bool :=
  (fst p =? fst q) && (snd p =? snd q).

(** [pos in cells], for a list or for the set built from it. *)
Definition pos_in (p : Position) (cells : list Position) : bool :=
  existsb (pos_eqb p) cells.

(** ** The random source *)

(** What a computation that draws random numbers does with a finite tape of
    raw draws: it returns a value and the unread tape, it raises, or it asks
    for a draw when the tape has ended.  Only the retry loop of
    [random_grid_position] can ask for more draws than any given number. *)
Inductive Exn : Type := IndexError.

Inductive Outcome (A : Type) : Type :=
| Returns (a : A) (rest : list Z)
| Raises (e : Exn)
| Spinning.
Arguments Returns {A} a rest.
Arguments Raises {A} e.
Arguments Spinning {A}.

Definition Rand (A : Type) : Type := list Z -> Outcome A.

Definition ret {A} (a : A) : Rand A := fun tape => Returns a tape.

Definition bind {A B} (m : Rand A) (k : A -> Rand B) : Rand B :=
  fun tape =>
    match m tape with
    | Returns a rest => k a rest
    | Raises e => Raises e
    | Spinning => Spinning
    end.

Definition raise {A} (e : Exn) : Rand A := fun _ => Raises e.

Declare Scope rand_scope.
Delimit Scope rand_scope with rand.
Notation "x <- m ;; k" := (bind m (fun x => k))
  (at level 61, m at next level, right associativity) : rand_scope.
Open Scope rand_scope.

(** The value [random.randrange(start, stop)] makes of one raw draw: every
    integer of [start, stop) and nothing else. *)
Definition in_range (start stop raw : Z) : Z := start + raw mod (stop - start).

Definition randrange (start stop : Z) : Rand Z :=
  fun tape =>
    match tape with
    | [] => Spinning
    | raw :: rest => Returns (in_range start stop raw) rest
    end.

(** ** random_grid_position *)

Definition screen_y_of (pos : Position) : float :=
  (float_of_int (snd pos * CELL_SIZE)
   + float_of_int CELL_SIZE / float_of_int 2)%float.

Definition ui_boundary : Z := SCREEN_HEIGHT - UI_HEIGHT.

(** The test of line 57: [pos not in excluded and screen_y < ui_boundary].
    [excluded] is the set built from the snake, of which only membership is
    used; [ui_boundary] is the integer 550, which Python compares with the
    float [screen_y] by value. *)
Definition accepts (excluded : list Position) (pos : Position) : bool :=
  negb (pos_in pos excluded)
  && (screen_y_of pos <? float_of_int ui_boundary)%float.

(** The [while True] loop: each round reads two raw draws (column, then row)
    and returns the cell if it passes the test.  The recursion is on the
    tape, which is what bounds the number of rounds. *)
Fixpoint random_grid_position (excluded : list Position) (tape : list Z)
  : Outcome Position :=
  match tape with
  | c :: r :: rest =>
      let col := in_range 0 GRID_COLS c in
      let row := in_range 0 GRID_ROWS r in
      let pos := (col, row) in
      if accepts excluded pos then Returns pos rest
      else random_grid_position excluded rest
  | _ => Spinning
  end.

(** ** The game object *)

Record SnakeGame : Type := mkGame {
  score : Z;
  level : Z;
  game_over : bool;
  snake : list Position;
  direction : Z * Z;
  next_direction : Z * Z;
  food : Position;
  move_interval : float;
  time_since_move : float
}.

(** [SnakeGame.__init__] *)
Definition init : SnakeGame :=
  {| score := 0; level := 1; game_over := false;
     snake := [];
     direction := (1, 0); next_direction := (1, 0);
     food := (0, 0);
     move_interval := MOVE_INTERVAL_START;
     time_since_move := 0.0%float |}.

Definition set_food (g : SnakeGame) (f : Position) : SnakeGame :=
  {| score := score g; level := level g; game_over := game_over g;
     snake := snake g;
     direction := direction g; next_direction := next_direction g;
     food := f;
     move_interval := move_interval g;
     time_since_move := time_since_move g |}.

Definition spawn_food (g : SnakeGame) : Rand SnakeGame :=
  let excluded := snake g in
  f <- random_grid_position excluded ;;
  ret (set_food g f).

Definition setup (g : SnakeGame) : Rand SnakeGame :=
  start_col <- randrange 2 (GRID_COLS - 2) ;;
  start_row <- randrange 1 (GRID_ROWS - 1) ;;
  let g1 :=
    {| score := 0; level := 1; game_over := false;
       snake := [(start_col, start_row);
                 (start_col - 1, start_row);
                 (start_col - 2, start_row)];
       direction := (1, 0); next_direction := (1, 0);
       food := food g;
       move_interval := move_interval g;
       time_since_move := time_since_move g |} in
  g2 <- spawn_food g1 ;;
  ret {| score := score g2; level := level g2; game_over := game_over g2;
         snake := snake g2;
         direction := direction g2; next_direction := next_direction g2;
         food := food g2;
         move_interval := MOVE_INTERVAL_START;
         time_since_move := 0.0%float |}.

Definition update_level_and_speed (g : SnakeGame) : SnakeGame :=
  let new_level := 1 + score g / 5 in
  let level' := if negb (new_level =? level g) then new_level else level g in
  let target_interval :=
    (MOVE_INTERVAL_START - float_of_int (level' - 1) * 0.02)%float in
  {| score := score g; level := level'; game_over := game_over g;
     snake := snake g;
     direction := direction g; next_direction := next_direction g;
     food := food g;
     move_interval :=
       clamp target_interval MOVE_INTERVAL_MIN MOVE_INTERVAL_START;
     time_since_move := time_since_move g |}.

Definition in_grid (p : Position) : bool :=
  (0 <=? fst p) && (fst p <? GRID_COLS) && (0 <=? snd p) && (snd p <? GRID_ROWS).

Definition set_game_over (g : SnakeGame) : SnakeGame :=
  {| score := score g; level := level g; game_over := true;
     snake := snake g;
     direction := direction g; next_direction := next_direction g;
     food := food g;
     move_interval := move_interval g;
     time_since_move := time_since_move g |}.

(** The head that [step_snake] is about to enter: the head moved by the
    pending direction (committed first thing in the step). *)
Definition new_head_of (g : SnakeGame) : option Position :=
  match snake g with
  | [] => None
  | (head_col, head_row) :: _ =>
      let '(dx, dy) := next_direction g in
      Some (head_col + dx, head_row + dy)
  end.

Definition step_snake (g : SnakeGame) : Rand SnakeGame :=
  let g :=
    {| score := score g; level := level g; game_over := game_over g;
       snake := snake g;
       direction := next_direction g; next_direction := next_direction g;
       food := food g;
       move_interval := move_interval g;
       time_since_move := time_since_move g |} in
  match snake g with
  | [] => raise IndexError
  | (head_col, head_row) :: _ =>
      let '(dx, dy) := direction g in
      let new_head := (head_col + dx, head_row + dy) in
      if negb (in_grid new_head) then ret (set_game_over g)
      else if pos_in new_head (snake g) then ret (set_game_over g)
      else
        let g :=
          {| score := score g; level := level g; game_over := game_over g;
             snake := new_head :: snake g;
             direction := direction g; next_direction := next_direction g;
             food := food g;
             move_interval := move_interval g;
             time_since_move := time_since_move g |} in
        if pos_eqb new_head (food g) then
          let g :=
            {| score := score g + 1; level := level g;
               game_over := game_over g;
               snake := snake g;
               direction := direction g; next_direction := next_direction g;
               food := food g;
               move_interval := move_interval g;
               time_since_move := time_since_move g |} in
          g <- spawn_food g ;;
          ret (update_level_and_speed g)
        else
          ret {| score := score g; level := level g;
                 game_over := game_over g;
                 snake := removelast (snake g);
                 direction := direction g; next_direction := next_direction g;
                 food := food g;
                 move_interval := move_interval g;
                 time_since_move := time_since_move g |}
  end.

Definition set_time_since_move (g : SnakeGame) (t : float) : SnakeGame :=
  {| score := score g; level := level g; game_over := game_over g;
     snake := snake g;
     direction := direction g; next_direction := next_direction g;
     food := food g;
     move_interval := move_interval g;
     time_since_move := t |}.

Definition on_update (g : SnakeGame) (delta_time : float) : Rand SnakeGame :=
  if game_over g then ret g
  else
    let g := set_time_since_move g (time_since_move g + delta_time)%float in
    if (move_interval g <=? time_since_move g)%float then
      step_snake (set_time_since_move g 0.0%float)
    else ret g.

Definition try_set_direction (g : SnakeGame) (dx dy : Z) : SnakeGame :=
  let '(current_dx, current_dy) := direction g in
  if pos_eqb (dx, dy) (- current_dx, - current_dy) then g
  else
    {| score := score g; level := level g; game_over := game_over g;
       snake := snake g;
       direction := direction g; next_direction := (dx, dy);
       food := food g;
       move_interval := move_interval g;
       time_since_move := time_since_move g |}.

(** The key codes of [arcade.key] that the handler tells apart; they are
    distinct integers, and any other code falls through every branch. *)
Inductive Key : Type := KeyR | KeyUp | KeyDown | KeyLeft | KeyRight | KeyOther.

Definition on_key_press (g : SnakeGame) (key : Key) : Rand SnakeGame :=
  match key with
  | KeyR => setup g
  | _ =>
      if game_over g then ret g
      else
        match key with
        | KeyUp => ret (try_set_direction g 0 1)
        | KeyDown => ret (try_set_direction g 0 (-1))
        | KeyLeft => ret (try_set_direction g (-1) 0)
        | KeyRight => ret (try_set_direction g 1 0)
        | _ => ret g
        end
  end.

(** ** The event loop *)

Inductive Event : Type :=
| Frame (delta_time : float)
| Press (key : Key).

Definition handle (e : Event) (g : SnakeGame) : Rand SnakeGame :=
  match e with
  | Frame delta_time => on_update g delta_time
  | Press key => on_key_press g key
  end.

Fixpoint run (events : list Event) (g : SnakeGame) : Rand SnakeGame :=
  match events with
  | [] => ret g
  | e :: events' => g' <- handle e g ;; run events' g'
  end.

(** [main]: construct the window, [setup], then let the event loop deliver
    events. *)
Definition main (events : list Event) : Rand SnakeGame :=
  g <- setup init ;; run events g.

Inductive reachable : SnakeGame -> Prop :=
| reachable_setup : forall tape g rest,
    setup init tape = Returns g rest -> reachable g
| reachable_event : forall g e tape g' rest,
    reachable g -> handle e g tape = Returns g' rest -> reachable g'.

(** ** Auxiliary definitions for the statements *)

(** The integers of [lo, lo + n), in order. *)
Definition zrange (lo : Z) (n : nat) : list Z :=
  map (fun i => lo + Z.of_nat i) (seq 0 n).

(** The cells that the rounds of [random_grid_position] draw from a tape,
    in order. *)
Fixpoint cells_of (tape : list Z) : list Position :=
  match tape with
  | c :: r :: rest =>
      (in_range 0 GRID_COLS c, in_range 0 GRID_ROWS r) :: cells_of rest
  | _ => []
  end.

(** The interval that [update_level_and_speed] sets at a given level. *)
Definition interval_at (lvl : Z) : float :=
  clamp (MOVE_INTERVAL_START - float_of_int (lvl - 1) * 0.02)%float
        MOVE_INTERVAL_MIN MOVE_INTERVAL_START.

(** The grid has [GRID_COLS * GRID_ROWS] cells, which bounds the level that
    a snake without duplicates can reach; the facts about binary64
    arithmetic are checked over that whole range of levels. *)
Definition MAX_LEVEL : Z := 1 + (GRID_COLS * GRID_ROWS) / 5.

Definition levels : list Z := zrange 1 (Z.to_nat MAX_LEVEL).

(** The three ways [step_snake] returns, with [nh] the cell entered. *)
Inductive step_case (g : SnakeGame) (tape : list Z) (nh : Position)
          (g' : SnakeGame) (rest : list Z) : Prop :=
| step_hit :
    in_grid nh = false \/ In nh (snake g) ->
    rest = tape -> game_over g' = true ->
    snake g' = snake g -> food g' = food g -> score g' = score g ->
    level g' = level g -> move_interval g' = move_interval g ->
    step_case g tape nh g' rest
| step_eat :
    in_grid nh = true -> ~ In nh (snake g) -> nh = food g ->
    random_grid_position (nh :: snake g) tape = Returns (food g') rest ->
    game_over g' = game_over g ->
    snake g' = nh :: snake g -> score g' = score g + 1 ->
    level g' = 1 + (score g + 1) / 5 ->
    move_interval g' = interval_at (level g') ->
    step_case g tape nh g' rest
| step_move :
    in_grid nh = true -> ~ In nh (snake g) -> nh <> food g ->
    rest = tape -> game_over g' = game_over g ->
    snake g' = removelast (nh :: snake g) -> food g' = food g ->
    score g' = score g -> level g' = level g ->
    move_interval g' = move_interval g ->
    step_case g tape nh g' rest.

(** The vector an arrow key asks for. *)
Definition key_vector (key : Key) : option (Z * Z) :=
  match key with
  | KeyUp => Some (0, 1)
  | KeyDown => Some (0, -1)
  | KeyLeft => Some (-1, 0)
  | KeyRight => Some (1, 0)
  | _ => None
  end.

(** [(-current_dx, -current_dy)] *)
Definition opposite (d : Z * Z) : Z * Z := (- fst d, - snd d).

(** The assignment [self.next_direction = (dx, dy)]. *)
Definition set_next_direction (g : SnakeGame) (d : Z * Z) : SnakeGame :=
  {| score := score g; level := level g; game_over := game_over g;
     snake := snake g;
     direction := direction g; next_direction := d;
     food := food g;
     move_interval := move_interval g;
     time_since_move := time_since_move g |}.

(** What holds of every reachable state. *)
Record invariant (g : SnakeGame) : Prop := {
  inv_nodup : NoDup (snake g);
  inv_grid : forall p, In p (snake g) -> in_grid p = true;
  inv_length : Z.of_nat (length (snake g)) = 3 + score g;
  inv_level : level g = 1 + score g / 5;
  inv_interval : move_interval g = interval_at (level g);
  inv_food : ~ In (food g) (snake g);
  inv_food_grid : in_grid (food g) = true;
  inv_food_ui :
    (screen_y_of (food g) <? float_of_int ui_boundary)%float = true;
  inv_score : 0 <= score g
}.

(** Every cell of the grid. *)
Definition all_cells : list Position :=
  list_prod (zrange 0 (Z.to_nat GRID_COLS)) (zrange 0 (Z.to_nat GRID_ROWS)).

(** The one event that calls [setup]: the restart key. *)
Definition is_reset (e : Event) : bool :=
  match e with Press KeyR => true | _ => false end.

(** A state reached by [main] with the draws 10, 10 (start cell) and 20, 20
    (food), used to exercise the theorems below. *)
Definition sample_game : SnakeGame :=
  {| score := 0; level := 1; game_over := false;
     snake := [(12, 11); (11, 11); (10, 11)];
     direction := (1, 0); next_direction := (1, 0);
     food := (20, 20);
     move_interval := MOVE_INTERVAL_START;
     time_since_move := 0.0%float |}.

(** A snake of four segments curled in a square, heading right into its
    tail cell. *)
Definition curled_game : SnakeGame :=
  {| score := 1; level := 1; game_over := false;
     snake := [(5, 5); (5, 6); (6, 6); (6, 5)];
     direction := (0, -1); next_direction := (1, 0);
     food := (20, 20);
     move_interval := MOVE_INTERVAL_START;
     time_since_move := 0.0%float |}.

(** The head at [(GRID_COLS - 1, 5)], moving right. *)
Definition edge_game : SnakeGame :=
  {| score := 0; level := 1; game_over := false;
     snake := [(39, 5); (38, 5); (37, 5)];
     direction := (1, 0); next_direction := (1, 0);
     food := (20, 20);
     move_interval := MOVE_INTERVAL_START;
     time_since_move := 0.0%float |}.

(** The binary64 value of [0.20 - 1 * 0.02], which prints as
    0.18000000000000002; the literal [0.18] denotes the double just below
    it. *)
Definition INTERVAL_LEVEL_2 : float := 0x1.70a3d70a3d70bp-3%float.

(** A running game with four points whose next step eats the fifth food. *)
Definition four_points_game : SnakeGame :=
  {| score := 4; level := 1; game_over := false;
     snake := [(9, 5); (8, 5); (7, 5); (6, 5); (5, 5); (4, 5); (3, 5)];
     direction := (1, 0); next_direction := (1, 0);
     food := (10, 5);
     move_interval := MOVE_INTERVAL_START;
     time_since_move := 0.0%float |}.

(** The advance eats when the cell it enters is in the grid, off the snake
    and holds the food. *)
Definition eats (g : SnakeGame) (nh : Position) : Prop :=
  in_grid nh = true /\ ~ In nh (snake g) /\ nh = food g.

(** ** Rendering *)

(** [SnakeGame.grid_to_screen_center] *)
Definition grid_to_screen_center (col row : Z) : float * float :=
  let x :=
    (float_of_int (col * CELL_SIZE)
     + float_of_int CELL_SIZE / float_of_int 2)%float in
  let y :=
    (float_of_int (row * CELL_SIZE)
     + float_of_int CELL_SIZE / float_of_int 2)%float in
  (x, y).

(** The colours of [arcade.color] that the window uses. *)
Inductive Color : Type := WHITE | DARK_GRAY | RED | LIME | CYAN | DARK_CYAN.

(** A number passed to a drawing call as Python has it: [int] or [float]. *)
Inductive PyNum : Type := PyInt (z : Z) | PyFloat (f : float).

(** The calls that [on_draw] makes on the window and on [arcade], with their
    arguments in the order of the source; [anchor_x] is the one keyword
    argument, absent in the first call. *)
Inductive DrawCommand : Type :=
| Clear
| DrawText (text : string) (x y : PyNum) (color : Color) (font_size : Z)
           (anchor_x : option string)
| DrawLine (start_x start_y end_x end_y : Z) (color : Color) (line_width : Z)
| DrawCircleFilled (center_x center_y radius : float) (color : Color)
| DrawLrbtRectangleFilled (left right bottom top : float) (color : Color).

(** [str(n)] of an [int], as the f-string of the HUD formats it. *)
Definition str (n : Z) : string := NilZero.string_of_int (Z.to_int n).

(** The loop [for i, (col, row) in enumerate(self.snake)], from index [i]. *)
Fixpoint draw_segments (i : nat) (segments : list Position)
  : list DrawCommand :=
  match segments with
  | [] => []
  | (col, row) :: segments' =>
      let '(x, y) := grid_to_screen_center col row in
      let color := if Nat.eqb i 0 then CYAN else DARK_CYAN in
      let half := (float_of_int (CELL_SIZE - 2) / float_of_int 2)%float in
      DrawLrbtRectangleFilled (x - half) (x + half) (y - half) (y + half) color
      :: draw_segments (S i) segments'
  end.

(** [SnakeGame.on_draw]: the sequence of drawing calls of one frame. *)
Definition on_draw (g : SnakeGame) : list DrawCommand :=
  let separator_y := SCREEN_HEIGHT - UI_HEIGHT in
  [ Clear;
    DrawText ("Score: " ++ str (score g) ++ "   Level: " ++ str (level g))
             (PyInt 10) (PyInt (SCREEN_HEIGHT - 30)) WHITE 16 None;
    DrawLine 0 separator_y SCREEN_WIDTH separator_y DARK_GRAY 2 ]
  ++
  if game_over g then
    [ DrawText "GAME OVER - Press R to Restart"
               (PyFloat (float_of_int SCREEN_WIDTH / float_of_int 2))
               (PyFloat (float_of_int SCREEN_HEIGHT / float_of_int 2))
               RED 24 (Some "center"%string) ]
  else
    let '(fx, fy) := grid_to_screen_center (fst (food g)) (snd (food g)) in
    DrawCircleFilled fx fy (float_of_int CELL_SIZE * 0.45)%float LIME
    :: draw_segments 0 (snake g).

(** ** Auxiliary definitions for the further properties *)

(** The comparison of two floats through their specification: [None] when
    one of them is a NaN. *)
Definition fcompare (x y : float) : option comparison :=
  SFcompare (Prim2SF x) (Prim2SF y).

(** The four unit vectors that the arrow keys ask for. *)
Definition is_unit (d : Z * Z) : Prop :=
  d = (1, 0) \/ d = (-1, 0) \/ d = (0, 1) \/ d = (0, -1).

(** [p] is one unit step away from [q]. *)
Definition adjacent (p q : Position) : Prop :=
  is_unit (fst p - fst q, snd p - snd q).

(** Every segment is one step away from the next one. *)
Fixpoint chain (cells : list Position) : Prop :=
  match cells with
  | p :: (q :: _) as cells' => adjacent p q /\ chain cells'
  | _ => True
  end.

(** What holds of directions and of the shape of the snake in every
    reachable state. *)
Record motion_invariant (g : SnakeGame) : Prop := {
  mo_direction : is_unit (direction g);
  mo_next_direction : is_unit (next_direction g);
  mo_no_reverse : next_direction g <> opposite (direction g);
  mo_chain : chain (snake g);
  mo_heading :
    game_over g = false ->
    exists h n body,
      snake g = h :: n :: body /\
      h = (fst n + fst (direction g), snd n + snd (direction g))
}.

(** A state as [setup] leaves it, possibly with arrow keys pressed since. *)
Definition fresh (g : SnakeGame) : Prop :=
  exists c r,
    2 <= c < GRID_COLS - 2 /\ 1 <= r < GRID_ROWS - 1 /\
    snake g = [(c, r); (c - 1, r); (c - 2, r)] /\
    game_over g = false /\ direction g = (1, 0) /\
    is_unit (next_direction g) /\ next_direction g <> (-1, 0).

(** The rectangles and circles among the drawing calls. *)
Definition is_rectangle (c : DrawCommand) : bool :=
  match c with DrawLrbtRectangleFilled _ _ _ _ _ => true | _ => false end.

Definition is_circle (c : DrawCommand) : bool :=
  match c with DrawCircleFilled _ _ _ _ => true | _ => false end.

(** The rectangle that fills the cell [(col, row)] but for a margin of one
    pixel, with integer corners. *)
Definition cell_rectangle (p : Position) (color : Color) : DrawCommand :=
  DrawLrbtRectangleFilled
    (float_of_int (fst p * CELL_SIZE + 1))
    (float_of_int (fst p * CELL_SIZE + CELL_SIZE - 1))
    (float_of_int (snd p * CELL_SIZE + 1))
    (float_of_int (snd p * CELL_SIZE + CELL_SIZE - 1))
    color.

(** A rectangle or a circle lies strictly inside the play area, the part of
    the window below the separator line; the other calls do not count. *)
Definition inside_play_area (c : DrawCommand) : bool :=
  let width := float_of_int SCREEN_WIDTH in
  let height := float_of_int (SCREEN_HEIGHT - UI_HEIGHT) in
  match c with
  | DrawLrbtRectangleFilled l r b t _ =>
      (0 <? l)%float && (l <? r)%float && (r <? width)%float
      && (0 <? b)%float && (b <? t)%float && (t <? height)%float
  | DrawCircleFilled cx cy radius _ =>
      (0 <? cx - radius)%float && (cx + radius <? width)%float
      && (0 <? cy - radius)%float && (cy + radius <? height)%float
  | _ => true
  end.

(** The snake that [setup] lays out from its two draws. *)
Definition start_snake (c0 r0 : Z) : list Position :=
  let start_col := in_range 2 (GRID_COLS - 2) c0 in
  let start_row := in_range 1 (GRID_ROWS - 1) r0 in
  [(start_col, start_row); (start_col - 1, start_row);
   (start_col - 2, start_row)].

(** The state [main] reaches with the draws 35, 4 (start cell) and 20, 20
    (food) after two ticks and the Up key: the head on the right edge, still
    moving right, with a turn pending. *)
Definition turning_game : SnakeGame :=
  {| score := 0; level := 1; game_over := false;
     snake := [(39, 5); (38, 5); (37, 5)];
     direction := (1, 0); next_direction := (0, 1);
     food := (20, 20);
     move_interval := MOVE_INTERVAL_START;
     time_since_move := 0.0%float |}.

(** The state [main] reaches with the draws 10, 10 (start cell) and 13, 11
    (food): the food lies right in front of the head. *)
Definition eating_game : SnakeGame :=
  {| score := 0; level := 1; game_over := false;
     snake := [(12, 11); (11, 11); (10, 11)];
     direction := (1, 0); next_direction := (1, 0);
     food := (13, 11);
     move_interval := MOVE_INTERVAL_START;
     time_since_move := 0.0%float |}.

(** * Properties *)

(** The scenario of the head at (5, 5) eating the food at (6, 5); the first
    cell drawn for the new food is the new head and is drawn again. *)
Example step_eats_food :
  step_snake
    {| score := 0; level := 1; game_over := false;
       snake := [(5, 5); (4, 5); (3, 5)];
       direction := (1, 0); next_direction := (1, 0);
       food := (6, 5);
       move_interval := MOVE_INTERVAL_START;
       time_since_move := 0.0%float |} [6; 5; 10; 10]
  = Returns
      {| score := 1; level := 1; game_over := false;
         snake := [(6, 5); (5, 5); (4, 5); (3, 5)];
         direction := (1, 0); next_direction := (1, 0);
         food := (10, 10);
         move_interval := MOVE_INTERVAL_START;
         time_since_move := 0.0%float |} [].
Proof. vm_compute. reflexivity. Qed.

(** ** Positions, lists and the random source *)

Lemma pos_eqb_eq (p q : Position) : pos_eqb p q = true <-> p = q.
Proof.
  destruct p as [a b], q as [c d]; unfold pos_eqb; simpl.
  rewrite andb_true_iff, !Z.eqb_eq.
  split; [intros [-> ->]; reflexivity | intros E; inversion E; auto].
Qed.

Lemma pos_eqb_neq (p q : Position) : pos_eqb p q = false <-> p <> q.
Proof.
  rewrite <- pos_eqb_eq. destruct (pos_eqb p q); split; congruence.
Qed.

Lemma pos_in_In (p : Position) (cells : list Position) :
  pos_in p cells = true <-> In p cells.
Proof.
  unfold pos_in. rewrite existsb_exists. split.
  - intros [q [Hq E]]. apply pos_eqb_eq in E. now subst.
  - intros H. exists p. split; [assumption | now apply pos_eqb_eq].
Qed.

Lemma pos_in_not_In (p : Position) (cells : list Position) :
  pos_in p cells = false <-> ~ In p cells.
Proof.
  rewrite <- pos_in_In. destruct (pos_in p cells); split; congruence.
Qed.

Lemma in_range_bounds (start stop raw : Z) :
  start < stop -> start <= in_range start stop raw < stop.
Proof.
  intros H. unfold in_range.
  pose proof (Z.mod_pos_bound raw (stop - start)). lia.
Qed.

Lemma in_grid_iff (p : Position) :
  in_grid p = true <->
  0 <= fst p < GRID_COLS /\ 0 <= snd p < GRID_ROWS.
Proof.
  unfold in_grid. rewrite !andb_true_iff, !Z.leb_le, !Z.ltb_lt. lia.
Qed.

Lemma removelast_incl {A} (l : list A) (x : A) :
  In x (removelast l) -> In x l.
Proof.
  induction l as [| a l IH]; simpl; [tauto |].
  destruct l as [| b l]; simpl in *; [tauto |].
  intros [H | H]; [now left | right; now apply IH].
Qed.

Lemma removelast_NoDup {A} (l : list A) : NoDup l -> NoDup (removelast l).
Proof.
  induction 1 as [| a l Hnotin Hnd IH]; simpl; [constructor |].
  destruct l as [| b l]; [constructor |].
  constructor; [| exact IH].
  intros Hin. apply Hnotin. now apply removelast_incl.
Qed.

Lemma removelast_cons_length {A} (a : A) (l : list A) :
  length (removelast (a :: l)) = length l.
Proof.
  revert a. induction l as [| b l IH]; intros a; [reflexivity |].
  change (length (removelast (a :: b :: l)))
    with (S (length (removelast (b :: l)))).
  now rewrite IH.
Qed.

Lemma zrange_In (lo : Z) (n : nat) (z : Z) :
  In z (zrange lo n) <-> lo <= z < lo + Z.of_nat n.
Proof.
  unfold zrange. rewrite in_map_iff. split.
  - intros [i [E Hi]]. apply in_seq in Hi. lia.
  - intros H. exists (Z.to_nat (z - lo)). split; [lia |].
    apply in_seq. lia.
Qed.

Lemma zrange_forallb (P : Z -> bool) (lo : Z) (n : nat) :
  forallb P (zrange lo n) = true ->
  forall z, lo <= z < lo + Z.of_nat n -> P z = true.
Proof.
  intros H z Hz. rewrite forallb_forall in H. apply H. now apply zrange_In.
Qed.

(** ** The retry loop *)

(** Every row of the grid lies below the UI boundary, so the second half of
    the test of [random_grid_position] never rejects a drawn cell. *)
Lemma rows_below_ui_boundary (p : Position) :
  0 <= snd p < GRID_ROWS ->
  (screen_y_of p <? float_of_int ui_boundary)%float = true.
Proof.
  intros H.
  assert (T : forallb
                (fun r => PrimFloat.ltb (screen_y_of (0, r))
                                        (float_of_int ui_boundary))
                (zrange 0 27) = true) by (vm_compute; reflexivity).
  change (screen_y_of p) with (screen_y_of (0, snd p)).
  apply (zrange_forallb _ _ _ T (snd p)).
  change GRID_ROWS with 27 in H. simpl. lia.
Qed.

Lemma accepts_iff (excluded : list Position) (p : Position) :
  0 <= snd p < GRID_ROWS ->
  accepts excluded p = true <-> ~ In p excluded.
Proof.
  intros H. unfold accepts.
  rewrite (rows_below_ui_boundary p H), andb_true_r, negb_true_iff.
  apply pos_in_not_In.
Qed.

Lemma drawn_cell_in_grid (c r : Z) :
  in_grid (in_range 0 GRID_COLS c, in_range 0 GRID_ROWS r) = true.
Proof.
  apply in_grid_iff. cbn [fst snd].
  split; apply in_range_bounds; reflexivity.
Qed.

(** Whatever the loop returns passed the test and is a cell of the grid. *)
Lemma random_grid_position_sound (excluded : list Position) :
  forall tape pos rest,
    random_grid_position excluded tape = Returns pos rest ->
    in_grid pos = true /\ ~ In pos excluded /\
    (screen_y_of pos <? float_of_int ui_boundary)%float = true.
Proof.
  fix IH 1. intros [| c [| r tape]] pos rest; simpl; try discriminate.
  destruct (accepts excluded _) eqn:Hacc.
  - intros E. inversion E; subst pos rest; clear E.
    pose proof (drawn_cell_in_grid c r) as Hg.
    split; [exact Hg |].
    apply in_grid_iff in Hg. destruct Hg as [_ Hrow].
    split; [now apply (accepts_iff excluded _ Hrow) |].
    now apply rows_below_ui_boundary.
  - apply IH.
Qed.

Lemma cells_of_in_grid : forall tape pos,
  In pos (cells_of tape) -> in_grid pos = true.
Proof.
  fix IH 1. intros [| c [| r tape]] pos; simpl; try tauto.
  intros [<- | H]; [apply drawn_cell_in_grid | now apply (IH tape)].
Qed.

(** If one of the drawn cells is outside the excluded set, the loop returns
    before the tape ends; if none is, it is still running at the end. *)
Lemma random_grid_position_returns (excluded : list Position) :
  forall tape pos,
    In pos (cells_of tape) -> ~ In pos excluded ->
    exists found rest, random_grid_position excluded tape = Returns found rest.
Proof.
  fix IH 1.
  intros [| c [| r tape]] pos; cbn [random_grid_position cells_of In];
    try tauto.
  intros Hin Hfree.
  destruct (accepts excluded _) eqn:Hacc; [eauto |].
  destruct Hin as [<- | Hin]; [| now apply (IH tape pos)].
  exfalso.
  pose proof (drawn_cell_in_grid c r) as Hg.
  apply in_grid_iff in Hg. destruct Hg as [_ Hrow].
  pose proof (proj2 (accepts_iff excluded _ Hrow) Hfree). congruence.
Qed.

Lemma random_grid_position_spins (excluded : list Position) :
  forall tape,
    (forall pos, In pos (cells_of tape) -> In pos excluded) ->
    random_grid_position excluded tape = Spinning.
Proof.
  fix IH 1.
  intros [| c [| r tape]] Hall; cbn [random_grid_position]; try reflexivity.
  destruct (accepts excluded _) eqn:Hacc.
  - exfalso.
    pose proof (drawn_cell_in_grid c r) as Hg.
    apply in_grid_iff in Hg. destruct Hg as [_ Hrow].
    apply (proj1 (accepts_iff excluded _ Hrow) Hacc), Hall.
    cbn [cells_of In]. now left.
  - apply IH. intros pos Hpos. apply Hall. cbn [cells_of In]. now right.
Qed.

(** ** Level and speed *)

Lemma update_level_and_speed_level (g : SnakeGame) :
  level (update_level_and_speed g) = 1 + score g / 5.
Proof.
  unfold update_level_and_speed; cbn [level].
  destruct (1 + score g / 5 =? level g) eqn:E; cbn [negb]; [| reflexivity].
  apply Z.eqb_eq in E. now symmetry.
Qed.

Lemma update_level_and_speed_interval (g : SnakeGame) :
  move_interval (update_level_and_speed g)
  = interval_at (level (update_level_and_speed g)).
Proof. reflexivity. Qed.

Lemma levels_In (lvl : Z) : 1 <= lvl <= MAX_LEVEL -> In lvl levels.
Proof.
  intros H. apply zrange_In. change MAX_LEVEL with 217 in *. lia.
Qed.

Lemma interval_at_bounds (lvl : Z) :
  1 <= lvl <= MAX_LEVEL ->
  (MOVE_INTERVAL_MIN <=? interval_at lvl)%float = true /\
  (interval_at lvl <=? MOVE_INTERVAL_START)%float = true.
Proof.
  intros H.
  assert (T : forallb
                (fun l => PrimFloat.leb MOVE_INTERVAL_MIN (interval_at l)
                          && PrimFloat.leb (interval_at l) MOVE_INTERVAL_START)
                levels = true) by (vm_compute; reflexivity).
  rewrite forallb_forall in T. apply andb_true_iff, T, levels_In, H.
Qed.

Lemma interval_at_antitone (lo hi : Z) :
  1 <= lo -> lo <= hi -> hi <= MAX_LEVEL ->
  (interval_at hi <=? interval_at lo)%float = true.
Proof.
  intros H1 H2 H3.
  assert (T : forallb
                (fun a => forallb
                   (fun b => (b <? a)%Z
                             || PrimFloat.leb (interval_at b) (interval_at a))
                   levels)
                levels = true) by (vm_compute; reflexivity).
  rewrite forallb_forall in T.
  assert (Ha : In lo levels) by (apply levels_In; lia).
  specialize (T lo Ha). rewrite forallb_forall in T.
  assert (Hb : In hi levels) by (apply levels_In; lia).
  specialize (T hi Hb). apply orb_true_iff in T.
  destruct T as [T | T]; [apply Z.ltb_lt in T; lia | exact T].
Qed.

(** ** One step of the snake *)

Lemma step_snake_cases (g : SnakeGame) (tape : list Z)
      (g' : SnakeGame) (rest : list Z) :
  step_snake g tape = Returns g' rest ->
  exists nh,
    new_head_of g = Some nh /\
    direction g' = next_direction g /\
    next_direction g' = next_direction g /\
    time_since_move g' = time_since_move g /\
    step_case g tape nh g' rest.
Proof.
  unfold step_snake, new_head_of, ret, raise. cbn [snake direction].
  destruct (snake g) as [| [head_col head_row] body] eqn:Hsnake;
    [discriminate |].
  destruct (next_direction g) as [dx dy] eqn:Hdir.
  set (nh := (head_col + dx, head_row + dy)).
  intros H. exists nh. split; [reflexivity |]. revert H.
  destruct (in_grid nh) eqn:Hgrid; cbn [negb].
  2:{ intros H. injection H as <- <-; cbn.
      repeat split; auto. apply step_hit; cbn; auto. }
  destruct (pos_in nh _) eqn:Hin.
  { intros H. injection H as <- <-; cbn.
    repeat split; auto.
    apply step_hit; cbn; auto. right. rewrite Hsnake. now apply pos_in_In. }
  apply pos_in_not_In in Hin. cbn [food].
  destruct (pos_eqb nh (food g)) eqn:Hfood.
  - apply pos_eqb_eq in Hfood.
    unfold spawn_food, bind, ret. cbn [snake].
    match goal with
    | |- context [random_grid_position ?e ?t] =>
        destruct (random_grid_position e t) as [f rest' | |] eqn:Hrgp
    end; try discriminate.
    intros H. injection H as <- <-.
    repeat split; auto.
    apply step_eat; rewrite ?Hsnake; auto.
    apply update_level_and_speed_level.
  - apply pos_eqb_neq in Hfood.
    intros H. injection H as <- <-; cbn.
    repeat split; auto. apply step_move; rewrite ?Hsnake; cbn; auto.
Qed.

(** The step returns on every non-empty snake unless it has to place food
    and the draws run out; in the two collision branches and in the plain
    move it reads no draw at all. *)
Lemma step_snake_hit (g : SnakeGame) (nh : Position) (tape : list Z) :
  new_head_of g = Some nh ->
  in_grid nh = false \/ In nh (snake g) ->
  exists g', step_snake g tape = Returns g' tape.
Proof.
  unfold step_snake, new_head_of. cbn [snake direction].
  destruct (snake g) as [| [head_col head_row] body]; [discriminate |].
  destruct (next_direction g) as [dx dy].
  intros E Hhit. inversion E; subst nh; clear E.
  destruct (in_grid _) eqn:Hgrid; cbn [negb]; [| unfold ret; eauto].
  destruct Hhit as [Hhit | Hhit]; [discriminate |].
  apply pos_in_In in Hhit. rewrite Hhit. unfold ret; eauto.
Qed.

(** ** The handlers *)

Lemma on_update_cases (g : SnakeGame) (delta_time : float) (tape : list Z)
      (g' : SnakeGame) (rest : list Z) :
  on_update g delta_time tape = Returns g' rest ->
  (game_over g = true /\ g' = g /\ rest = tape) \/
  (game_over g = false /\ rest = tape /\
   g' = set_time_since_move g (time_since_move g + delta_time)%float) \/
  (game_over g = false /\
   step_snake
     (set_time_since_move
        (set_time_since_move g (time_since_move g + delta_time)%float)
        0.0%float) tape = Returns g' rest).
Proof.
  unfold on_update.
  destruct (game_over g).
  - intros H; inversion H; auto.
  - destruct (PrimFloat.leb _ _).
    + intros H. right; right. auto.
    + intros H; inversion H. right; left. auto.
Qed.

Lemma try_set_direction_cases (g : SnakeGame) (dx dy : Z) :
  ((dx, dy) = opposite (direction g) /\ try_set_direction g dx dy = g) \/
  ((dx, dy) <> opposite (direction g) /\
   try_set_direction g dx dy = set_next_direction g (dx, dy)).
Proof.
  unfold try_set_direction, set_next_direction, opposite.
  destruct (direction g) as [cx cy]; cbn [fst snd].
  destruct (pos_eqb (dx, dy) (- cx, - cy)) eqn:E.
  - left. apply pos_eqb_eq in E. auto.
  - right. apply pos_eqb_neq in E. auto.
Qed.

Lemma on_key_press_arrow (g : SnakeGame) (key : Key) (d : Z * Z)
      (tape : list Z) :
  key_vector key = Some d ->
  on_key_press g key tape =
  Returns (if game_over g then g else try_set_direction g (fst d) (snd d))
          tape.
Proof.
  destruct key; cbn; try discriminate;
    intros E; inversion E; subst d; destruct (game_over g); reflexivity.
Qed.

Lemma setup_spec (g : SnakeGame) (tape : list Z) (g' : SnakeGame)
      (rest : list Z) :
  setup g tape = Returns g' rest ->
  exists c r,
    2 <= c < GRID_COLS - 2 /\ 1 <= r < GRID_ROWS - 1 /\
    snake g' = [(c, r); (c - 1, r); (c - 2, r)] /\
    score g' = 0 /\ level g' = 1 /\ game_over g' = false /\
    direction g' = (1, 0) /\ next_direction g' = (1, 0) /\
    move_interval g' = MOVE_INTERVAL_START /\
    time_since_move g' = 0.0%float /\
    exists tape', random_grid_position (snake g') tape' = Returns (food g') rest.
Proof.
  unfold setup, spawn_food, bind, randrange, ret.
  destruct tape as [| c0 [| r0 tape']]; try discriminate.
  cbn [snake].
  match goal with
  | |- context [random_grid_position ?e ?t] =>
      destruct (random_grid_position e t) as [f rest' | |] eqn:Hrgp
  end; try discriminate.
  intros H. injection H as <- <-. cbn.
  exists (in_range 2 (GRID_COLS - 2) c0), (in_range 1 (GRID_ROWS - 1) r0).
  split; [apply in_range_bounds; reflexivity |].
  split; [apply in_range_bounds; reflexivity |].
  repeat (split; [reflexivity |]).
  exists tape'. exact Hrgp.
Qed.

(** ** The invariant of the reachable states *)

Lemma invariant_setup (g : SnakeGame) (tape : list Z) (g' : SnakeGame)
      (rest : list Z) :
  setup g tape = Returns g' rest -> invariant g'.
Proof.
  intros H. apply setup_spec in H.
  destruct H as (c & r & Hc & Hr & Hsnake & Hscore & Hlevel & _ & _ & _ &
                 Hint & _ & tape' & Hfood).
  apply random_grid_position_sound in Hfood.
  destruct Hfood as (Hfg & Hfs & Hfu).
  change GRID_COLS with 40 in Hc. change GRID_ROWS with 27 in Hr.
  split; rewrite ?Hsnake, ?Hscore, ?Hlevel.
  - repeat constructor; simpl; intros H;
      repeat (destruct H as [H | H]; [inversion H; lia |]); exact H.
  - intros p Hp. apply in_grid_iff.
    change GRID_COLS with 40. change GRID_ROWS with 27.
    simpl in Hp.
    repeat (destruct Hp as [Hp | Hp]; [subst p; simpl; lia |]).
    contradiction.
  - reflexivity.
  - reflexivity.
  - rewrite Hint. vm_compute. reflexivity.
  - now rewrite <- Hsnake.
  - exact Hfg.
  - exact Hfu.
  - lia.
Qed.

Lemma invariant_step (g : SnakeGame) (tape : list Z) (g' : SnakeGame)
      (rest : list Z) :
  invariant g -> step_snake g tape = Returns g' rest -> invariant g'.
Proof.
  intros [Hnd Hgrid Hlen Hlvl Hint Hfood Hfg Hfu Hsc] H.
  apply step_snake_cases in H.
  destruct H as (nh & _ & _ & _ & _ & Hcase).
  destruct Hcase as
    [ _ _ _ Es Ef Esc El Ei
    | Hin Hfree Heat Hrgp _ Es Esc El Ei
    | Hin Hfree Hne _ _ Es Ef Esc El Ei ].
  - split; rewrite ?Es, ?Ef, ?Esc, ?El, ?Ei; auto.
  - apply random_grid_position_sound in Hrgp.
    destruct Hrgp as (Hfg' & Hfs' & Hfu').
    split; auto; rewrite ?Es, ?Esc, ?El.
    + now constructor.
    + intros p [<- | Hp]; auto.
    + change (length (nh :: snake g)) with (S (length (snake g))). lia.
    + reflexivity.
    + exact Hfs'.
    + lia.
  - split; rewrite ?Es, ?Ef, ?Esc, ?El, ?Ei; auto.
    + apply removelast_NoDup. now constructor.
    + intros p Hp. apply removelast_incl in Hp.
      destruct Hp as [<- | Hp]; auto.
    + rewrite removelast_cons_length. exact Hlen.
    + intros Hp. apply removelast_incl in Hp.
      destruct Hp as [Hp | Hp]; auto.
Qed.

Lemma invariant_handle (e : Event) (g : SnakeGame) (tape : list Z)
      (g' : SnakeGame) (rest : list Z) :
  invariant g -> handle e g tape = Returns g' rest -> invariant g'.
Proof.
  intros Hinv H. destruct e as [delta_time | key]; cbn [handle] in H.
  - apply on_update_cases in H.
    destruct H as [(_ & -> & _) | [(_ & _ & ->) | (_ & H)]].
    + exact Hinv.
    + destruct Hinv; split; assumption.
    + revert H. apply invariant_step.
      destruct Hinv; split; assumption.
  - destruct (key_vector key) as [d |] eqn:Hkey.
    + rewrite (on_key_press_arrow g key d tape Hkey) in H.
      injection H as <- <-.
      destruct (game_over g); [exact Hinv |].
      destruct (try_set_direction_cases g (fst d) (snd d))
        as [(_ & ->) | (_ & ->)]; [exact Hinv |].
      destruct Hinv; split; assumption.
    + destruct key; try discriminate; cbn in H.
      * now apply invariant_setup in H.
      * destruct (game_over g); injection H as <- <-; exact Hinv.
Qed.

Lemma reachable_invariant (g : SnakeGame) : reachable g -> invariant g.
Proof.
  induction 1 as [tape g rest H | g e tape g' rest _ IH H].
  - now apply invariant_setup in H.
  - now apply (invariant_handle e g tape g' rest).
Qed.

(** The snake is a duplicate-free list of grid cells, so it is no longer
    than the grid has cells; this bounds the score and the level. *)
Lemma all_cells_In (p : Position) : in_grid p = true -> In p all_cells.
Proof.
  intros H. apply in_grid_iff in H. destruct p as [c r]. cbn [fst snd] in H.
  apply in_prod; apply zrange_In; rewrite Z2Nat.id by discriminate; lia.
Qed.

Lemma snake_fits_grid (g : SnakeGame) :
  invariant g -> Z.of_nat (length (snake g)) <= GRID_COLS * GRID_ROWS.
Proof.
  intros Hinv.
  assert (L : (length (snake g) <= length all_cells)%nat).
  { apply NoDup_incl_length; [apply (inv_nodup g Hinv) |].
    intros p Hp. apply all_cells_In, (inv_grid g Hinv), Hp. }
  assert (E : length all_cells = 1080%nat) by (vm_compute; reflexivity).
  rewrite E in L. change (GRID_COLS * GRID_ROWS) with 1080. lia.
Qed.

Lemma level_bounds (g : SnakeGame) :
  invariant g -> 1 <= level g <= MAX_LEVEL.
Proof.
  intros Hinv. pose proof (snake_fits_grid g Hinv) as Hfit.
  pose proof (inv_length g Hinv) as Hlen.
  pose proof (inv_score g Hinv) as Hsc.
  rewrite (inv_level g Hinv).
  change (GRID_COLS * GRID_ROWS) with 1080 in Hfit.
  change MAX_LEVEL with 217.
  assert (0 <= score g / 5) by (apply Z.div_pos; lia).
  assert (score g / 5 <= 1080 / 5) by (apply Z.div_le_mono; lia).
  change (1080 / 5) with 216 in *. lia.
Qed.

(** ** Collisions *)

Lemma step_snake_collision (g : SnakeGame) (nh : Position) (tape : list Z) :
  new_head_of g = Some nh ->
  in_grid nh = false \/ In nh (snake g) ->
  exists g',
    step_snake g tape = Returns g' tape /\
    game_over g' = true /\ snake g' = snake g /\ food g' = food g /\
    score g' = score g /\ level g' = level g /\
    move_interval g' = move_interval g.
Proof.
  intros Hnh Hhit.
  destruct (step_snake_hit g nh tape Hnh Hhit) as [g' Hstep].
  exists g'. split; [exact Hstep |].
  apply step_snake_cases in Hstep.
  destruct Hstep as (nh' & Hnh' & _ & _ & _ & Hcase).
  assert (nh' = nh) by congruence. subst nh'.
  destruct Hcase as [ | Hin Hfree | Hin Hfree ]; [auto 10 | |];
    destruct Hhit; congruence.
Qed.

(** ** Runs of events *)

Lemma reachable_run (events : list Event) :
  forall g tape g' rest,
    reachable g -> run events g tape = Returns g' rest -> reachable g'.
Proof.
  induction events as [| e events IH]; intros g tape g' rest Hr H.
  - injection H as <- <-. exact Hr.
  - cbn [run] in H. unfold bind in H.
    destruct (handle e g tape) as [g1 rest1 | |] eqn:He; try discriminate.
    apply (IH g1 rest1 g' rest); [| exact H].
    now apply (reachable_event g e tape g1 rest1).
Qed.

(** Once the game is over, only the restart key changes anything. *)
Lemma handle_game_over (e : Event) (g : SnakeGame) (tape : list Z) :
  game_over g = true -> is_reset e = false ->
  handle e g tape = Returns g tape.
Proof.
  intros Hover Hr. destruct e as [delta_time | key]; cbn.
  - unfold on_update. now rewrite Hover.
  - destruct key; try discriminate; cbn; now rewrite Hover.
Qed.

Lemma run_game_over (events : list Event) (g : SnakeGame) (tape : list Z) :
  game_over g = true -> existsb is_reset events = false ->
  run events g tape = Returns g tape.
Proof.
  intros Hover. induction events as [| e events IH]; intros Hr.
  - reflexivity.
  - cbn [existsb] in Hr. apply orb_false_iff in Hr. destruct Hr as [He Hr].
    cbn [run]. unfold bind. rewrite (handle_game_over e g tape Hover He).
    now apply IH.
Qed.

(** Without a restart the score never goes down. *)
Lemma handle_score_mono (e : Event) (g : SnakeGame) (tape : list Z)
      (g' : SnakeGame) (rest : list Z) :
  is_reset e = false -> handle e g tape = Returns g' rest ->
  score g <= score g'.
Proof.
  intros Hr H. destruct e as [delta_time | key]; cbn [handle] in H.
  - apply on_update_cases in H.
    destruct H as [(_ & -> & _) | [(_ & _ & ->) | (_ & H)]];
      [lia | cbn; lia |].
    apply step_snake_cases in H.
    destruct H as (nh & _ & _ & _ & _ & Hcase).
    cbn [score set_time_since_move] in Hcase.
    destruct Hcase; cbn [score set_time_since_move] in *; lia.
  - destruct (key_vector key) as [d |] eqn:Hkey.
    + rewrite (on_key_press_arrow g key d tape Hkey) in H.
      injection H as <- <-.
      destruct (game_over g); [lia |].
      destruct (try_set_direction_cases g (fst d) (snd d))
        as [(_ & ->) | (_ & ->)]; cbn; lia.
    + destruct key; try discriminate; cbn in H.
      destruct (game_over g); injection H as <- <-; lia.
Qed.

Lemma run_score_mono (events : list Event) :
  forall g tape g' rest,
    existsb is_reset events = false ->
    run events g tape = Returns g' rest -> score g <= score g'.
Proof.
  induction events as [| e events IH]; intros g tape g' rest Hr H.
  - injection H as <- <-. lia.
  - cbn [existsb] in Hr. apply orb_false_iff in Hr. destruct Hr as [He Hr].
    cbn [run] in H. unfold bind in H.
    destruct (handle e g tape) as [g1 rest1 | |] eqn:Hh; try discriminate.
    pose proof (handle_score_mono e g tape g1 rest1 He Hh).
    pose proof (IH g1 rest1 g' rest Hr H). lia.
Qed.

(** ** Progress of a step and of setup *)

Lemma random_grid_position_no_raise (excluded : list Position) :
  forall tape e, random_grid_position excluded tape <> Raises e.
Proof.
  fix IH 1.
  intros [| c [| r tape]] e; cbn [random_grid_position]; try discriminate.
  destruct (accepts excluded _); [discriminate | apply IH].
Qed.

Lemma setup_no_raise (g : SnakeGame) (tape : list Z) (e : Exn) :
  setup g tape <> Raises e.
Proof.
  unfold setup, spawn_food, bind, randrange, ret.
  destruct tape as [| c0 [| r0 tape']]; try discriminate.
  cbn [snake].
  match goal with
  | |- context [random_grid_position ?ex ?t] =>
      pose proof (random_grid_position_no_raise ex t) as N;
      destruct (random_grid_position ex t) as [f rest' | e' |]
  end; try discriminate.
  exfalso. now apply (N e').
Qed.

Lemma new_head_of_spec (g : SnakeGame) (nh : Position) :
  new_head_of g = Some nh ->
  exists h body,
    snake g = h :: body /\
    nh = (fst h + fst (next_direction g), snd h + snd (next_direction g)).
Proof.
  unfold new_head_of.
  destruct (snake g) as [| [hc hr] body]; [discriminate |].
  destruct (next_direction g) as [dx dy].
  intros E. injection E as <-. exists (hc, hr), body. auto.
Qed.

(** On a non-empty snake the step returns, unless it eats and none of the
    cells drawn for the new food is free. *)
Lemma step_snake_progress (g : SnakeGame) (tape : list Z) :
  snake g <> [] ->
  (exists g' rest, step_snake g tape = Returns g' rest) \/
  (step_snake g tape = Spinning /\
   exists nh, new_head_of g = Some nh /\ eats g nh /\
              forall pos, In pos (cells_of tape) -> In pos (nh :: snake g)).
Proof.
  unfold step_snake, new_head_of, eats, ret, raise. cbn [snake direction].
  destruct (snake g) as [| [head_col head_row] body] eqn:Hsnake;
    [congruence |].
  intros _.
  destruct (next_direction g) as [dx dy] eqn:Hdir.
  set (nh := (head_col + dx, head_row + dy)).
  destruct (in_grid nh) eqn:Hgrid; cbn [negb]; [| eauto].
  destruct (pos_in nh _) eqn:Hin; [eauto |].
  apply pos_in_not_In in Hin. cbn [food].
  destruct (pos_eqb nh (food g)) eqn:Hfood; [| eauto].
  apply pos_eqb_eq in Hfood.
  unfold spawn_food, bind, ret. cbn [snake].
  match goal with
  | |- context [random_grid_position ?ex ?t] =>
      pose proof (random_grid_position_no_raise ex t) as N;
      pose proof (random_grid_position_returns ex t) as R;
      destruct (random_grid_position ex t) as [f rest' | e' |]
  end.
  - eauto.
  - exfalso. now apply (N e').
  - right. split; [reflexivity |].
    exists nh. repeat split; auto.
    intros pos Hpos.
    destruct (pos_in pos (nh :: (head_col, head_row) :: body)) eqn:E.
    + now apply pos_in_In in E.
    + apply pos_in_not_In in E.
      destruct (R pos Hpos E) as (found & rest & Habs). discriminate.
Qed.

Lemma invariant_snake_nonempty (g : SnakeGame) :
  invariant g -> snake g <> [].
Proof.
  intros Hinv E.
  pose proof (inv_length g Hinv) as Hlen.
  pose proof (inv_score g Hinv) as Hsc.
  rewrite E in Hlen. cbn [length Z.of_nat] in Hlen. lia.
Qed.

(** The committed direction of a returned step is the pending one. *)
Lemma step_snake_commits (g : SnakeGame) (tape : list Z) :
  snake g <> [] ->
  (exists g' rest,
      step_snake g tape = Returns g' rest /\ direction g' = next_direction g)
  \/
  (step_snake g tape = Spinning /\
   exists nh, new_head_of g = Some nh /\ eats g nh /\
              forall pos, In pos (cells_of tape) -> In pos (nh :: snake g)).
Proof.
  intros Hne.
  destruct (step_snake_progress g tape Hne) as [(g' & rest & H) | H];
    [left | right; exact H].
  exists g', rest. split; [exact H |].
  apply step_snake_cases in H. destruct H as (nh & _ & Hd & _). exact Hd.
Qed.

(** A step that does not eat returns on every tape without reading it, and
    keeps length and score. *)
Lemma step_snake_plain (g : SnakeGame) (nh : Position) (tape : list Z) :
  new_head_of g = Some nh -> ~ eats g nh ->
  exists g',
    step_snake g tape = Returns g' tape /\
    length (snake g') = length (snake g) /\ score g' = score g.
Proof.
  intros Hnh Hno.
  assert (Hne : snake g <> []).
  { apply new_head_of_spec in Hnh. destruct Hnh as (h & body & E & _).
    rewrite E. discriminate. }
  destruct (step_snake_progress g tape Hne)
    as [(g' & rest & H) | (_ & nh' & Hnh' & Heat & _)].
  - pose proof H as Hc. apply step_snake_cases in Hc.
    destruct Hc as (nh' & Hnh' & _ & _ & _ & Hcase).
    assert (nh' = nh) by congruence. subst nh'.
    destruct Hcase as
      [ _ Er _ Es _ Esc _ _
      | Hin Hfree Hfood _ _ _ _ _ _
      | _ _ _ Er _ Es _ Esc _ _ ].
    + subst rest. exists g'. rewrite Es. auto.
    + exfalso. apply Hno. unfold eats. auto.
    + subst rest. exists g'. rewrite Es, removelast_cons_length. auto.
  - exfalso. assert (nh' = nh) by congruence. subst nh'. auto.
Qed.

(** A step that eats returns as soon as the tape draws a cell off the grown
    snake, one segment longer and one point up. *)
Lemma step_snake_eating (g : SnakeGame) (nh : Position) (tape : list Z) :
  new_head_of g = Some nh -> eats g nh ->
  (exists pos, In pos (cells_of tape) /\ ~ In pos (nh :: snake g)) ->
  exists g' rest,
    step_snake g tape = Returns g' rest /\
    length (snake g') = S (length (snake g)) /\ score g' = score g + 1.
Proof.
  intros Hnh (Hgrid & Hfree & Hfood) (pos & Hdrawn & Hoff).
  assert (Hne : snake g <> []).
  { apply new_head_of_spec in Hnh. destruct Hnh as (h & body & E & _).
    rewrite E. discriminate. }
  destruct (step_snake_progress g tape Hne)
    as [(g' & rest & H) | (_ & nh' & Hnh' & _ & Hall)].
  - exists g', rest. split; [exact H |].
    apply step_snake_cases in H.
    destruct H as (nh' & Hnh' & _ & _ & _ & Hcase).
    assert (nh' = nh) by congruence. subst nh'.
    destruct Hcase as
      [ Hhit _ _ _ _ _ _ _
      | _ _ _ _ _ Es Esc _ _
      | _ _ Hne' _ _ _ _ _ _ _ ].
    + exfalso. destruct Hhit; congruence.
    + rewrite Es. auto.
    + contradiction.
  - exfalso. assert (nh' = nh) by congruence. subst nh'.
    apply Hoff, Hall, Hdrawn.
Qed.

(** [setup] returns as soon as the tape, after the two draws of the start
    cell, draws a cell off the new snake. *)
Lemma setup_returns (g : SnakeGame) (c0 r0 : Z) (tape : list Z) :
  (exists pos, In pos (cells_of tape) /\ ~ In pos (start_snake c0 r0)) ->
  exists g' rest, setup g (c0 :: r0 :: tape) = Returns g' rest.
Proof.
  intros (pos & Hdrawn & Hoff).
  destruct (random_grid_position_returns (start_snake c0 r0) tape pos
                                         Hdrawn Hoff)
    as (found & rest & H).
  unfold setup, spawn_food, bind, randrange, ret. cbn [snake].
  unfold start_snake in H. cbv zeta in H. rewrite H. eauto.
Qed.

Lemma main_reachable (events : list Event) (tape : list Z)
      (g : SnakeGame) (rest : list Z) :
  main events tape = Returns g rest -> reachable g.
Proof.
  unfold main, bind.
  destruct (setup init tape) as [g0 rest0 | |] eqn:Hs; try discriminate.
  apply reachable_run. now apply (reachable_setup tape g0 rest0).
Qed.

(** * The claims *)

Example sample_game_setup :
  setup init [10; 10; 20; 20] = Returns sample_game [].
Proof. vm_compute. reflexivity. Qed.

(** C1. In every reachable state in which the game is not over the snake has
    no duplicate positions; and an advance whose new head is already a snake
    cell does not move the snake but ends the game. *)
Theorem snake_has_no_duplicates (g : SnakeGame) :
  reachable g -> game_over g = false ->
  NoDup (snake g) /\
  (forall nh tape,
      new_head_of g = Some nh -> In nh (snake g) ->
      exists g', step_snake g tape = Returns g' tape /\
                 game_over g' = true /\ snake g' = snake g).
Proof.
  intros Hr _. split.
  - apply inv_nodup, reachable_invariant, Hr.
  - intros nh tape Hnh Hin.
    destruct (step_snake_collision g nh tape Hnh (or_intror Hin))
      as (g' & Hs & Ho & Hsn & _).
    exists g'. auto.
Qed.

Lemma snake_has_no_duplicates_witness :
  NoDup (snake sample_game) /\
  (forall nh tape,
      new_head_of sample_game = Some nh -> In nh (snake sample_game) ->
      exists g', step_snake sample_game tape = Returns g' tape /\
                 game_over g' = true /\ snake g' = snake sample_game).
Proof.
  apply (snake_has_no_duplicates sample_game).
  - apply (reachable_setup [10; 10; 20; 20] sample_game []).
    vm_compute. reflexivity.
  - reflexivity.
Defined.

(** C2. In a running state, if the new head computed by the advance is the
    cell of the snake's own tail segment (the last element of the pre-move
    body), the advance ends the game and leaves the snake where it was: the
    self-collision test sees the tail. *)
Theorem moving_into_tail_ends_game
        (g : SnakeGame) (body : list Position) (tail : Position)
        (tape : list Z) :
  game_over g = false ->
  snake g = body ++ [tail] ->
  new_head_of g = Some tail ->
  exists g', step_snake g tape = Returns g' tape /\
             game_over g' = true /\ snake g' = snake g.
Proof.
  intros _ Hsnake Hnh.
  assert (Hin : In tail (snake g)).
  { rewrite Hsnake. apply in_or_app. right. now left. }
  destruct (step_snake_collision g tail tape Hnh (or_intror Hin))
    as (g' & Hs & Ho & Hsn & _).
  exists g'. auto.
Qed.

Lemma moving_into_tail_ends_game_witness :
  exists g', step_snake curled_game [] = Returns g' [] /\
             game_over g' = true /\ snake g' = snake curled_game.
Proof.
  apply (moving_into_tail_ends_game
           curled_game [(5, 5); (5, 6); (6, 6)] (6, 5) []);
    reflexivity.
Defined.

(** C3, as stated, fails: [main] reaches a running state whose head is on
    the right edge with the committed direction pointing off the grid, and
    the next advance does not end the game, because the Up key accepted
    since the last tick is what the advance commits. *)
Lemma pending_turn_survives_wall :
  main [Frame 0.25%float; Frame 0.25%float; Press KeyUp] [35; 4; 20; 20]
  = Returns turning_game [] /\
  reachable turning_game /\
  game_over turning_game = false /\
  hd_error (snake turning_game) = Some (GRID_COLS - 1, 5) /\
  direction turning_game = (1, 0) /\
  in_grid (GRID_COLS - 1 + 1, 5 + 0) = false /\
  exists g',
    on_update turning_game 0.25%float [] = Returns g' [] /\
    step_snake turning_game [] = Returns g' [] /\
    game_over g' = false /\
    snake g' = [(39, 6); (39, 5); (38, 5)].
Proof.
  assert (M : main [Frame 0.25%float; Frame 0.25%float; Press KeyUp]
                   [35; 4; 20; 20] = Returns turning_game [])
    by (vm_compute; reflexivity).
  split; [exact M |].
  split; [exact (main_reachable _ _ _ _ M) |].
  repeat (split; [reflexivity |]).
  eexists. split; [vm_compute; reflexivity |].
  split; [vm_compute; reflexivity |].
  split; reflexivity.
Qed.

(** C3, amended. In a running state whose head is on the boundary and whose
    pending direction (the one the advance commits; it is the committed
    direction unless an arrow key was accepted since the last tick) points
    off the grid, one advance sets the game-over flag and leaves snake,
    food, score (and level and interval) as they were; from then on no
    sequence of frame updates and key presses other than the restart key
    changes the state at all. *)
Theorem wall_collision_freezes_game
        (g : SnakeGame) (nh : Position) (tape : list Z) :
  game_over g = false ->
  new_head_of g = Some nh ->
  in_grid nh = false ->
  exists g',
    step_snake g tape = Returns g' tape /\
    game_over g' = true /\
    snake g' = snake g /\ food g' = food g /\ score g' = score g /\
    level g' = level g /\
    forall events tape',
      existsb is_reset events = false ->
      run events g' tape' = Returns g' tape'.
Proof.
  intros _ Hnh Hout.
  destruct (step_snake_collision g nh tape Hnh (or_introl Hout))
    as (g' & Hs & Ho & Hsn & Hf & Hsc & Hl & _).
  exists g'. repeat (split; [assumption |]).
  intros events tape' Hev. now apply run_game_over.
Qed.

Lemma wall_collision_freezes_game_witness :
  exists g',
    step_snake edge_game [] = Returns g' [] /\
    game_over g' = true /\
    snake g' = snake edge_game /\ food g' = food edge_game /\
    score g' = score edge_game /\ level g' = level edge_game /\
    forall events tape',
      existsb is_reset events = false ->
      run events g' tape' = Returns g' tape'.
Proof.
  apply (wall_collision_freezes_game edge_game (40, 5) []); reflexivity.
Defined.

(** C4. In every reachable state the level is [1 + score // 5]. *)
Theorem level_tracks_score (g : SnakeGame) :
  reachable g -> level g = 1 + score g / 5.
Proof.
  intros Hr. apply inv_level, reachable_invariant, Hr.
Qed.

Lemma level_tracks_score_witness :
  level sample_game = 1 + score sample_game / 5.
Proof.
  apply (level_tracks_score sample_game).
  apply (reachable_setup [10; 10; 20; 20] sample_game []).
  vm_compute. reflexivity.
Defined.

(** C5. In every reachable state the move interval lies within
    [MOVE_INTERVAL_MIN, MOVE_INTERVAL_START] = [0.06, 0.20]; and along any
    run of events without a restart from such a state the score does not
    decrease and the move interval does not increase. *)
Theorem move_interval_bounded_and_antitone (g : SnakeGame) :
  reachable g ->
  ((MOVE_INTERVAL_MIN <=? move_interval g)%float = true /\
   (move_interval g <=? MOVE_INTERVAL_START)%float = true) /\
  (forall events tape g' rest,
      existsb is_reset events = false ->
      run events g tape = Returns g' rest ->
      score g <= score g' /\
      (move_interval g' <=? move_interval g)%float = true).
Proof.
  intros Hr. pose proof (reachable_invariant g Hr) as Hinv.
  pose proof (level_bounds g Hinv) as Hlvl.
  split.
  - rewrite (inv_interval g Hinv). now apply interval_at_bounds.
  - intros events tape g' rest Hev Hrun.
    pose proof (run_score_mono events g tape g' rest Hev Hrun) as Hsc.
    split; [exact Hsc |].
    pose proof (reachable_invariant g' (reachable_run events g tape g' rest
                                                       Hr Hrun)) as Hinv'.
    pose proof (level_bounds g' Hinv') as Hlvl'.
    rewrite (inv_interval g Hinv), (inv_interval g' Hinv').
    apply interval_at_antitone; try lia.
    rewrite (inv_level g Hinv), (inv_level g' Hinv').
    assert (score g / 5 <= score g' / 5) by (apply Z.div_le_mono; lia).
    lia.
Qed.

Lemma move_interval_bounded_and_antitone_witness :
  ((MOVE_INTERVAL_MIN <=? move_interval sample_game)%float = true /\
   (move_interval sample_game <=? MOVE_INTERVAL_START)%float = true) /\
  (forall events tape g' rest,
      existsb is_reset events = false ->
      run events sample_game tape = Returns g' rest ->
      score sample_game <= score g' /\
      (move_interval g' <=? move_interval sample_game)%float = true).
Proof.
  apply (move_interval_bounded_and_antitone sample_game).
  apply (reachable_setup [10; 10; 20; 20] sample_game []).
  vm_compute. reflexivity.
Defined.

Example interval_level_2_computed :
  (MOVE_INTERVAL_START - float_of_int 1 * 0.02)%float = INTERVAL_LEVEL_2 /\
  PrimFloat.next_up 0.18%float = INTERVAL_LEVEL_2.
Proof. split; vm_compute; reflexivity. Qed.

(** C6, as stated, fails: the advance that brings the score to 5 sets level 2
    but the interval it stores is not the float [0.18]. *)
Lemma fifth_food_interval_is_not_0_18 :
  exists g',
    step_snake four_points_game [20; 20] = Returns g' [] /\
    score g' = 5 /\ level g' = 2 /\
    (move_interval g' =? 0.18)%float = false /\
    move_interval g' <> 0.18%float.
Proof.
  eexists. split; [vm_compute; reflexivity |].
  cbn [score level move_interval].
  repeat split.
  intros E.
  assert (F : (0x1.70a3d70a3d70bp-3 =? 0.18)%float = false)
    by (vm_compute; reflexivity).
  rewrite E in F. vm_compute in F. discriminate.
Qed.

(** C6, amended. Whenever an event takes the score from 4 to 5, the level
    becomes 2 and the move interval becomes the binary64 result of
    [0.20 - 1 * 0.02], that is 0.18000000000000002, one unit in the last
    place above the float [0.18]. *)
Theorem fifth_food_sets_level_2 (e : Event) (g : SnakeGame) (tape : list Z)
        (g' : SnakeGame) (rest : list Z) :
  handle e g tape = Returns g' rest ->
  score g = 4 -> score g' = 5 ->
  level g' = 2 /\ move_interval g' = INTERVAL_LEVEL_2.
Proof.
  intros H H4 H5. destruct e as [delta_time | key]; cbn [handle] in H.
  - apply on_update_cases in H.
    destruct H as [(_ & -> & _) | [(_ & _ & ->) | (_ & H)]];
      [lia | cbn in H5; lia |].
    apply step_snake_cases in H.
    destruct H as (nh & _ & _ & _ & _ & Hcase).
    cbn [score set_time_since_move] in Hcase.
    destruct Hcase as [ | _ _ _ _ _ _ Esc El Ei | ];
      cbn [score set_time_since_move] in *; try lia.
    rewrite H4 in El. change (1 + (4 + 1) / 5) with 2 in El.
    split; [exact El |]. rewrite Ei, El. vm_compute. reflexivity.
  - destruct (key_vector key) as [d |] eqn:Hkey.
    + rewrite (on_key_press_arrow g key d tape Hkey) in H.
      injection H as <- <-.
      destruct (game_over g); [lia |].
      destruct (try_set_direction_cases g (fst d) (snd d))
        as [(_ & E) | (_ & E)]; rewrite E in H5; cbn in H5; lia.
    + destruct key; try discriminate; cbn in H.
      * apply setup_spec in H.
        destruct H as (c & r & _ & _ & _ & H0 & _). lia.
      * destruct (game_over g); injection H as <- <-; lia.
Qed.

Lemma fifth_food_sets_level_2_witness :
  exists g',
    handle (Frame 0.25%float) four_points_game [20; 20] = Returns g' [] /\
    level g' = 2 /\ move_interval g' = INTERVAL_LEVEL_2.
Proof.
  eexists. split; [vm_compute; reflexivity |].
  apply (fifth_food_sets_level_2 (Frame 0.25%float) four_points_game
                                 [20; 20] _ []);
    vm_compute; reflexivity.
Defined.

(** C7. An arrow key whose vector is the exact opposite of the committed
    direction, or one pressed while the game is over, changes nothing at
    all.  Any other arrow key stores its vector as the pending direction and
    changes no other field (the committed direction included); the next
    advance is what commits it: on a non-empty snake, with the score in
    the range of binary64, the next step returns with the stored vector as
    committed direction, on every tape, unless it eats and no cell drawn
    for the new food is free. *)
Theorem set_direction_rejects_or_buffers
        (g : SnakeGame) (key : Key) (d : Z * Z) (tape : list Z) :
  key_vector key = Some d ->
  (d = opposite (direction g) \/ game_over g = true ->
   on_key_press g key tape = Returns g tape) /\
  (d <> opposite (direction g) -> game_over g = false ->
   on_key_press g key tape = Returns (set_next_direction g d) tape /\
   direction (set_next_direction g d) = direction g /\
   (forall tape' g' rest,
     step_snake (set_next_direction g d) tape' = Returns g' rest ->
     direction g' = d) /\
   (snake g <> [] -> Z.abs (score g) < 2 ^ 1000 ->
    forall tape',
      (exists g' rest,
          step_snake (set_next_direction g d) tape' = Returns g' rest /\
          direction g' = d) \/
      (step_snake (set_next_direction g d) tape' = Spinning /\
       exists nh,
         new_head_of (set_next_direction g d) = Some nh /\
         eats (set_next_direction g d) nh /\
         forall pos, In pos (cells_of tape') -> In pos (nh :: snake g)))).
Proof.
  intros Hkey. rewrite (on_key_press_arrow g key d tape Hkey).
  destruct d as [dx dy]. cbn [fst snd].
  destruct (try_set_direction_cases g dx dy) as [(Ho & E) | (Hn & E)].
  - split.
    + intros _. rewrite E. now destruct (game_over g).
    + intros Hne. contradiction.
  - split.
    + intros [Ho | Hover]; [contradiction | now rewrite Hover].
    + intros _ Hrun. rewrite Hrun, E.
      split; [reflexivity |]. split; [reflexivity |]. split.
      * intros tape' g' rest Hstep.
        apply step_snake_cases in Hstep.
        destruct Hstep as (nh & _ & Hd & _). exact Hd.
      * intros Hne _ tape'.
        apply (step_snake_commits (set_next_direction g (dx, dy)) tape').
        exact Hne.
Qed.

(** The Left key is refused while moving right; the Up key is stored, and the
    next step turns the snake upwards. *)
Lemma set_direction_rejects_or_buffers_witness :
  on_key_press sample_game KeyLeft [] = Returns sample_game [] /\
  on_key_press sample_game KeyUp []
  = Returns (set_next_direction sample_game (0, 1)) [] /\
  direction (set_next_direction sample_game (0, 1)) = (1, 0) /\
  exists g',
    step_snake (set_next_direction sample_game (0, 1)) [] = Returns g' [] /\
    direction g' = (0, 1) /\
    snake g' = [(12, 12); (12, 11); (11, 11)].
Proof.
  destruct (set_direction_rejects_or_buffers
              sample_game KeyLeft (-1, 0) [] eq_refl) as [Hrej _].
  destruct (set_direction_rejects_or_buffers
              sample_game KeyUp (0, 1) [] eq_refl) as [_ Hbuf].
  assert (Hne : (0, 1) <> opposite (direction sample_game))
    by (vm_compute; discriminate).
  destruct (Hbuf Hne eq_refl) as (Hpress & Hdir & Hpart & Htot).
  split; [apply Hrej; left; reflexivity |].
  split; [exact Hpress |].
  split; [exact Hdir |].
  eexists. split; [vm_compute; reflexivity |].
  split; [| reflexivity].
  apply (Hpart [] _ []). vm_compute. reflexivity.
Defined.

(** C8. In every reachable state the food is not on any snake segment, it is
    a cell of the grid (so its row is within [0, GRID_ROWS)), and the centre
    of its cell lies below the boundary of the UI strip. *)
Theorem food_off_snake_and_off_ui_strip (g : SnakeGame) :
  reachable g ->
  ~ In (food g) (snake g) /\
  (0 <= fst (food g) < GRID_COLS /\ 0 <= snd (food g) < GRID_ROWS) /\
  (screen_y_of (food g) <? float_of_int ui_boundary)%float = true.
Proof.
  intros Hr. pose proof (reachable_invariant g Hr) as Hinv.
  split; [apply (inv_food g Hinv) |].
  split; [apply in_grid_iff, (inv_food_grid g Hinv) |].
  apply (inv_food_ui g Hinv).
Qed.

Lemma food_off_snake_and_off_ui_strip_witness :
  ~ In (food sample_game) (snake sample_game) /\
  (0 <= fst (food sample_game) < GRID_COLS /\
   0 <= snd (food sample_game) < GRID_ROWS) /\
  (screen_y_of (food sample_game) <? float_of_int ui_boundary)%float = true.
Proof.
  apply (food_off_snake_and_off_ui_strip sample_game).
  apply (reachable_setup [10; 10; 20; 20] sample_game []).
  vm_compute. reflexivity.
Defined.

(** The retry loop of [spawn_food] needs a draw of a free cell to stop: while
    the draws keep landing on the snake's head it is still running, after
    any number of rounds, although free cells exist. *)
Lemma spawn_food_can_retry_forever :
  (exists cell,
      in_grid cell = true /\ ~ In cell (snake sample_game) /\
      accepts (snake sample_game) cell = true) /\
  forall n, spawn_food sample_game (concat (repeat [12; 11] n)) = Spinning.
Proof.
  split.
  - exists (0, 0). split; [reflexivity |]. split; [| reflexivity].
    simpl. intros [H | [H | [H | H]]]; try discriminate; exact H.
  - intros n. unfold spawn_food, bind.
    rewrite random_grid_position_spins; [reflexivity |].
    cbn [snake sample_game].
    induction n as [| n IH]; intros pos; cbn [repeat concat app cells_of In].
    + tauto.
    + intros [<- | H]; [| now apply IH].
      vm_compute. now left.
Qed.

(** X22. If the draws of the random source include a grid cell that is not
    on the snake, [spawn_food] returns, and the food it places is a cell of
    the grid, off the snake and below the UI boundary; nothing else in the
    state changes. *)
Theorem spawn_food_returns_once_a_free_cell_is_drawn
        (g : SnakeGame) (tape : list Z) (pos : Position) :
  In pos (cells_of tape) -> ~ In pos (snake g) ->
  exists cell rest,
    spawn_food g tape = Returns (set_food g cell) rest /\
    in_grid cell = true /\ ~ In cell (snake g) /\
    (screen_y_of cell <? float_of_int ui_boundary)%float = true.
Proof.
  intros Hdrawn Hfree.
  destruct (random_grid_position_returns (snake g) tape pos Hdrawn Hfree)
    as (cell & rest & Hret).
  exists cell, rest. split.
  - unfold spawn_food, bind, ret. now rewrite Hret.
  - now apply (random_grid_position_sound (snake g) tape cell rest).
Qed.

Lemma spawn_food_returns_once_a_free_cell_is_drawn_witness :
  exists cell rest,
    spawn_food sample_game [12; 11; 7; 30; 1; 1]
    = Returns (set_food sample_game cell) rest /\
    in_grid cell = true /\ ~ In cell (snake sample_game) /\
    (screen_y_of cell <? float_of_int ui_boundary)%float = true.
Proof.
  apply (spawn_food_returns_once_a_free_cell_is_drawn
           sample_game [12; 11; 7; 30; 1; 1] (7, 3)).
  - vm_compute. right. left. reflexivity.
  - vm_compute. intros [H | [H | [H | H]]]; try discriminate; exact H.
Defined.

Example spawn_food_skips_occupied_cells :
  spawn_food sample_game [12; 11; 7; 30; 1; 1]
  = Returns (set_food sample_game (7, 3)) [1; 1].
Proof. vm_compute. reflexivity. Qed.

(** C10. In every reachable state in which the game is not over the snake has
    [3 + score] segments.  The advance is total there: a step that does not
    eat returns on every tape, reads no draw and keeps length and score; a
    step that eats returns as soon as a cell off the grown snake is drawn,
    with the snake one segment longer and the score one higher; and however
    a step returns, it did one of the two.  A reset returns as soon as a
    cell off the new snake is drawn, and gives a snake of three segments and
    score 0. *)
Theorem snake_length_is_three_plus_score (g : SnakeGame) :
  reachable g -> game_over g = false ->
  Z.of_nat (length (snake g)) = 3 + score g /\
  (exists nh,
      new_head_of g = Some nh /\
      (~ eats g nh ->
       forall tape, exists g',
           step_snake g tape = Returns g' tape /\
           length (snake g') = length (snake g) /\
           score g' = score g) /\
      (eats g nh ->
       forall tape,
         (exists pos, In pos (cells_of tape) /\ ~ In pos (nh :: snake g)) ->
         exists g' rest,
           step_snake g tape = Returns g' rest /\
           length (snake g') = S (length (snake g)) /\
           score g' = score g + 1)) /\
  (forall tape g' rest,
      step_snake g tape = Returns g' rest ->
      exists nh,
        new_head_of g = Some nh /\
        ((eats g nh /\
          length (snake g') = S (length (snake g)) /\
          score g' = score g + 1) \/
         (~ eats g nh /\
          length (snake g') = length (snake g) /\
          score g' = score g))) /\
  (forall c0 r0 tape,
      (exists pos, In pos (cells_of tape) /\ ~ In pos (start_snake c0 r0)) ->
      exists g' rest,
        setup g (c0 :: r0 :: tape) = Returns g' rest /\
        length (snake g') = 3%nat /\ score g' = 0) /\
  (forall tape g' rest,
      setup g tape = Returns g' rest ->
      length (snake g') = 3%nat /\ score g' = 0).
Proof.
  intros Hr _. pose proof (reachable_invariant g Hr) as Hinv.
  assert (Hreset : forall tape g' rest,
             setup g tape = Returns g' rest ->
             length (snake g') = 3%nat /\ score g' = 0).
  { intros tape g' rest H. apply setup_spec in H.
    destruct H as (c & r & _ & _ & Es & Esc & _).
    rewrite Es. auto. }
  split; [apply (inv_length g Hinv) |].
  split; [| split; [| split; [| exact Hreset]]].
  - pose proof (invariant_snake_nonempty g Hinv) as Hne.
    destruct (new_head_of g) as [nh |] eqn:Hnh.
    + exists nh. split; [reflexivity |]. split.
      * intros Hno tape. now apply (step_snake_plain g nh tape).
      * intros Heat tape Hdrawn. now apply (step_snake_eating g nh tape).
    + exfalso. unfold new_head_of in Hnh.
      destruct (snake g) as [| [hc hr] body]; [congruence |].
      destruct (next_direction g). discriminate.
  - intros tape g' rest H. apply step_snake_cases in H.
    destruct H as (nh & Hnh & _ & _ & _ & Hcase).
    exists nh. split; [exact Hnh |]. unfold eats.
    destruct Hcase as
      [ Hhit _ _ Es _ Esc _ _
      | Hin Hfree Heat _ _ Es Esc _ _
      | Hin Hfree Hne _ _ Es _ Esc _ _ ].
    + right. rewrite Es. repeat split; auto.
      intros (Hin & Hfree & _). destruct Hhit; congruence.
    + left. rewrite Es. repeat split; auto.
    + right. rewrite Es, removelast_cons_length. repeat split; auto.
      intros (_ & _ & Heat). contradiction.
  - intros c0 r0 tape Hdrawn.
    destruct (setup_returns g c0 r0 tape Hdrawn) as (g' & rest & H).
    exists g', rest. split; [exact H |]. exact (Hreset _ _ _ H).
Qed.

(** The first step of [eating_game] eats: the snake grows from 3 to 4 and the
    score goes from 0 to 1; the first step of [sample_game] does not, and
    keeps 3 segments and score 0; a reset in mid-game gives 3 segments and
    score 0 again. *)
Lemma snake_length_is_three_plus_score_witness :
  Z.of_nat (length (snake eating_game)) = 3 + score eating_game /\
  (exists g',
      step_snake eating_game [20; 20] = Returns g' [] /\
      snake g' = [(13, 11); (12, 11); (11, 11); (10, 11)] /\
      length (snake g') = S (length (snake eating_game)) /\
      score g' = score eating_game + 1) /\
  (exists g' rest,
      setup eating_game [7; 7; 20; 20] = Returns g' rest /\
      length (snake g') = 3%nat /\ score g' = 0).
Proof.
  destruct (snake_length_is_three_plus_score eating_game)
    as (Hlen & (nh & Hnh & Hplain & Heat) & Hany & Hreset & _).
  - apply (reachable_setup [10; 10; 13; 11] eating_game []).
    vm_compute. reflexivity.
  - reflexivity.
  - split; [exact Hlen |]. split.
    + eexists. split; [vm_compute; reflexivity |].
      split; [reflexivity |].
      destruct (Hany [20; 20] _ [] ltac:(vm_compute; reflexivity))
        as (nh' & _ & [(_ & Hl & Hs) | (_ & Hl & Hs)]).
      * split; [exact Hl | exact Hs].
      * vm_compute in Hl. discriminate.
    + apply (Hreset 7 7 [20; 20]).
      exists (20, 20). split; [vm_compute; now left |].
      vm_compute. intros [H | [H | [H | H]]]; try discriminate; exact H.
Defined.

(** * Further properties *)

(** ** Comparison of binary64 floats *)

Lemma ltb_fcompare (x y : float) :
  (x <? y)%float = true <-> fcompare x y = Some Lt.
Proof.
  rewrite FloatAxioms.ltb_spec. unfold SFltb, fcompare.
  destruct (SFcompare _ _) as [[| |] |]; split; congruence.
Qed.

Lemma leb_fcompare (x y : float) :
  (x <=? y)%float = true <->
  fcompare x y = Some Lt \/ fcompare x y = Some Eq.
Proof.
  rewrite FloatAxioms.leb_spec. unfold SFleb, fcompare.
  destruct (SFcompare _ _) as [[| |] |]; split;
    try tauto; try congruence; intros [H | H]; congruence.
Qed.

Lemma SFcompare_antisym (a b : spec_float) (c : comparison) :
  SFcompare a b = Some c -> SFcompare b a = Some (CompOpp c).
Proof.
  destruct a as [sa | sa | | sa ma ea], b as [sb | sb | | sb mb eb];
    cbn; try discriminate;
    try (destruct sa; intros E; injection E as <-; reflexivity);
    try (destruct sb; intros E; injection E as <-; reflexivity);
    try (destruct sa, sb; intros E; injection E as <-; reflexivity).
  intros E. injection E as <-. f_equal.
  pose proof (Pos.compare_cont_antisym ma mb Eq) as P. cbn [CompOpp] in P.
  rewrite (Z.compare_antisym ea eb), <- P.
  destruct sa, sb; try reflexivity;
    destruct (ea ?= eb); cbn; try reflexivity;
    destruct (Pos.compare_cont Eq ma mb); reflexivity.
Qed.

Lemma SFcompare_refl (a b : spec_float) (c : comparison) :
  SFcompare a b = Some c -> SFcompare a a = Some Eq.
Proof.
  destruct a as [sa | sa | | sa ma ea]; cbn; try discriminate.
  - reflexivity.
  - intros _. now destruct sa.
  - intros _. rewrite Z.compare_refl.
    change (Pos.compare_cont Eq ma ma) with (Pos.compare ma ma).
    rewrite Pos.compare_refl. now destruct sa.
Qed.

Lemma SFcompare_defined (a b : spec_float) (c d : comparison) :
  SFcompare a a = Some c -> SFcompare b b = Some d ->
  exists e, SFcompare a b = Some e.
Proof.
  destruct a as [sa | sa | | sa ma ea], b as [sb | sb | | sb mb eb];
    cbn; try discriminate; eauto.
Qed.

Lemma fcompare_antisym (x y : float) (c : comparison) :
  fcompare x y = Some c -> fcompare y x = Some (CompOpp c).
Proof. apply SFcompare_antisym. Qed.

Lemma fcompare_refl_l (x y : float) (c : comparison) :
  fcompare x y = Some c -> fcompare x x = Some Eq.
Proof. apply SFcompare_refl. Qed.

Lemma fcompare_refl_r (x y : float) (c : comparison) :
  fcompare x y = Some c -> fcompare y y = Some Eq.
Proof.
  intros H. apply fcompare_antisym in H. now apply fcompare_refl_l in H.
Qed.

Lemma ltb_irrefl (x : float) : (x <? x)%float = false.
Proof.
  destruct (x <? x)%float eqn:E; [| reflexivity].
  apply ltb_fcompare in E. pose proof (fcompare_antisym x x Lt E) as F.
  cbn in F. congruence.
Qed.

Lemma ltb_asym (x y : float) :
  (x <? y)%float = true -> (y <? x)%float = false.
Proof.
  intros H. apply ltb_fcompare in H.
  destruct (y <? x)%float eqn:E; [| reflexivity].
  apply ltb_fcompare in E. apply fcompare_antisym in E. cbn in E. congruence.
Qed.

(** ** clamp *)

(** X1. Whatever the value (a NaN or an infinity included), if
    [min_value <= max_value] then [clamp] returns a float between the two
    bounds. *)
Theorem clamp_within_bounds (value min_value max_value : float) :
  (min_value <=? max_value)%float = true ->
  (min_value <=? clamp value min_value max_value)%float = true /\
  (clamp value min_value max_value <=? max_value)%float = true.
Proof.
  intros Hle. pose proof Hle as Hc. apply leb_fcompare in Hc.
  assert (Hlo : fcompare min_value min_value = Some Eq)
    by (destruct Hc as [Hc | Hc]; apply (fcompare_refl_l _ _ _ Hc)).
  assert (Hhi : fcompare max_value max_value = Some Eq)
    by (destruct Hc as [Hc | Hc]; apply (fcompare_refl_r _ _ _ Hc)).
  assert (Rlo : (min_value <=? min_value)%float = true)
    by (apply leb_fcompare; now right).
  assert (Rhi : (max_value <=? max_value)%float = true)
    by (apply leb_fcompare; now right).
  unfold clamp, py_max, py_min.
  destruct (max_value <? value)%float eqn:Hv.
  - destruct (min_value <? max_value)%float; auto.
  - destruct (min_value <? value)%float eqn:Hm; [| auto].
    apply ltb_fcompare in Hm. split.
    + apply leb_fcompare. now left.
    + pose proof (fcompare_refl_r _ _ _ Hm) as Hvv.
      destruct (SFcompare_defined _ _ _ _ Hhi Hvv) as [e He].
      change (fcompare max_value value = Some e) in He.
      pose proof (fcompare_antisym _ _ _ He) as Ha.
      apply leb_fcompare. destruct e; cbn in Ha; auto.
      apply ltb_fcompare in He. congruence.
Qed.

Lemma clamp_within_bounds_witness :
  (MOVE_INTERVAL_MIN <=? clamp nan MOVE_INTERVAL_MIN MOVE_INTERVAL_START)%float
  = true /\
  (clamp nan MOVE_INTERVAL_MIN MOVE_INTERVAL_START <=? MOVE_INTERVAL_START)%float
  = true.
Proof.
  apply (clamp_within_bounds nan MOVE_INTERVAL_MIN MOVE_INTERVAL_START).
  reflexivity.
Defined.

(** X2. [clamp] is idempotent: clamping a clamped value with the same bounds
    changes nothing, for all floats and all bounds. *)
Theorem clamp_idempotent (value min_value max_value : float) :
  clamp (clamp value min_value max_value) min_value max_value
  = clamp value min_value max_value.
Proof.
  unfold clamp, py_max, py_min.
  destruct (max_value <? value)%float eqn:Hv.
  - destruct (min_value <? max_value)%float eqn:Hm.
    + now rewrite ltb_irrefl, Hm.
    + destruct (max_value <? min_value)%float eqn:Hr.
      * now rewrite Hm.
      * now rewrite ltb_irrefl.
  - destruct (min_value <? value)%float eqn:Hm.
    + now rewrite Hv, Hm.
    + destruct (max_value <? min_value)%float eqn:Hr.
      * now rewrite (ltb_asym _ _ Hr).
      * now rewrite ltb_irrefl.
Qed.

(** ** Exceptions and blocking *)

Lemma handle_no_raise (ev : Event) (g : SnakeGame) (tape : list Z) (e : Exn) :
  invariant g -> handle ev g tape <> Raises e.
Proof.
  intros Hinv. destruct ev as [delta_time | key]; cbn [handle].
  - unfold on_update, ret. destruct (game_over g); [discriminate |].
    destruct (PrimFloat.leb _ _); [| discriminate].
    match goal with
    | |- step_snake ?s tape <> _ =>
        destruct (step_snake_progress s tape) as [(g' & rest & E) | (E & _)]
    end.
    + apply (invariant_snake_nonempty g Hinv).
    + rewrite E. discriminate.
    + rewrite E. discriminate.
  - destruct key; cbn; unfold ret; try apply setup_no_raise;
      destruct (game_over g); discriminate.
Qed.

(** X3. In a state whose score is within the range of binary64 (so that no
    conversion of the step can overflow), [step_snake] raises exactly when
    the snake is empty, as it is between construction and the first
    [setup]: the [IndexError] of [self.snake[0]]. *)
Theorem step_snake_raises_iff_snake_empty
        (g : SnakeGame) (tape : list Z) (e : Exn) :
  Z.abs (score g) < 2 ^ 1000 ->
  (step_snake g tape = Raises e <-> snake g = []).
Proof.
  intros _. split.
  - intros H. destruct (snake g) as [| h body] eqn:Hsnake; [reflexivity |].
    exfalso.
    destruct (step_snake_progress g tape) as [(g' & rest & E) | (E & _)];
      congruence.
  - intros H. unfold step_snake. cbn [snake]. rewrite H.
    destruct e. reflexivity.
Qed.

Lemma step_snake_raises_iff_snake_empty_witness :
  (step_snake init [3; 4] = Raises IndexError <-> snake init = []) /\
  step_snake init [3; 4] = Raises IndexError /\
  (step_snake sample_game [3; 4] = Raises IndexError <->
   snake sample_game = []) /\
  step_snake sample_game [3; 4] <> Raises IndexError.
Proof.
  split; [| split; [| split]].
  - apply (step_snake_raises_iff_snake_empty init [3; 4] IndexError).
    vm_compute. reflexivity.
  - reflexivity.
  - apply (step_snake_raises_iff_snake_empty sample_game [3; 4] IndexError).
    vm_compute. reflexivity.
  - vm_compute. discriminate.
Defined.

(** X4. The program never raises: whatever the events and the draws, [main]
    (construct, [setup], then the event loop) does not end in an exception,
    and no event raises in a reachable state. *)
Theorem event_loop_never_raises (events : list Event) (tape : list Z)
        (e : Exn) :
  main events tape <> Raises e /\
  (forall g ev, reachable g -> handle ev g tape <> Raises e).
Proof.
  split.
  - unfold main, bind.
    pose proof (setup_no_raise init tape) as N.
    destruct (setup init tape) as [g rest | e' |] eqn:Hs;
      [| exfalso; now apply (N e') | discriminate].
    assert (Hr : reachable g) by (now apply (reachable_setup tape g rest)).
    clear Hs N. revert g rest Hr.
    induction events as [| ev events IH]; intros g rest Hr; [discriminate |].
    cbn [run]. unfold bind.
    pose proof (handle_no_raise ev g rest) as N.
    destruct (handle ev g rest) as [g1 rest1 | e' |] eqn:Hh.
    + apply IH. now apply (reachable_event g ev rest g1 rest1).
    + exfalso. apply (N e'); [now apply reachable_invariant | reflexivity].
    + discriminate.
  - intros g ev Hr. apply handle_no_raise. now apply reachable_invariant.
Qed.

(** X5. In a reachable state a step returns on every tape, except that a
    step which eats waits for a free cell: it is still drawing at the end of
    the tape only if it eats and every cell drawn from the tape lies on the
    grown snake. *)
Theorem step_blocks_only_to_place_food (g : SnakeGame) (tape : list Z) :
  reachable g ->
  (exists g' rest, step_snake g tape = Returns g' rest) \/
  (step_snake g tape = Spinning /\
   exists nh, new_head_of g = Some nh /\ eats g nh /\
              forall pos, In pos (cells_of tape) -> In pos (nh :: snake g)).
Proof.
  intros Hr. apply step_snake_progress.
  apply invariant_snake_nonempty, reachable_invariant, Hr.
Qed.

Lemma step_blocks_only_to_place_food_witness :
  (exists g' rest, step_snake sample_game [] = Returns g' rest) \/
  (step_snake sample_game [] = Spinning /\
   exists nh, new_head_of sample_game = Some nh /\ eats sample_game nh /\
              forall pos, In pos (cells_of []) ->
                          In pos (nh :: snake sample_game)).
Proof.
  apply (step_blocks_only_to_place_food sample_game []).
  apply (reachable_setup [10; 10; 20; 20] sample_game []).
  vm_compute. reflexivity.
Defined.

(** ** Directions and the shape of the snake *)

Lemma is_unit_not_opposite (d : Z * Z) : is_unit d -> d <> opposite d.
Proof.
  intros [-> | [-> | [-> | ->]]]; unfold opposite; cbn; discriminate.
Qed.

Lemma key_vector_unit (key : Key) (d : Z * Z) :
  key_vector key = Some d -> is_unit d.
Proof.
  unfold is_unit.
  destruct key; cbn; try discriminate; intros E; injection E as <-; tauto.
Qed.

Lemma adjacent_step (h d : Z * Z) :
  is_unit d -> adjacent (fst h + fst d, snd h + snd d) h.
Proof.
  unfold adjacent, is_unit. cbn [fst snd].
  replace (fst h + fst d - fst h) with (fst d) by lia.
  replace (snd h + snd d - snd h) with (snd d) by lia.
  now destruct d.
Qed.

Lemma chain_removelast (cells : list Position) :
  chain cells -> chain (removelast cells).
Proof.
  induction cells as [| p cells IH]; [trivial |].
  destruct cells as [| q cells]; [trivial |].
  intros [Hpq Hc]. specialize (IH Hc).
  destruct cells as [| r cells]; [exact I |].
  change (removelast (p :: q :: r :: cells))
    with (p :: q :: removelast (r :: cells)).
  change (removelast (q :: r :: cells))
    with (q :: removelast (r :: cells)) in IH.
  split; assumption.
Qed.

Lemma motion_setup (g : SnakeGame) (tape : list Z) (g' : SnakeGame)
      (rest : list Z) :
  setup g tape = Returns g' rest -> motion_invariant g'.
Proof.
  intros H. apply setup_spec in H.
  destruct H as (c & r & _ & _ & Hsnake & _ & _ & _ & Hd & Hn & _).
  split; rewrite ?Hsnake, ?Hd, ?Hn.
  - left; reflexivity.
  - left; reflexivity.
  - discriminate.
  - cbn. unfold adjacent, is_unit. cbn [fst snd].
    repeat split; left; f_equal; lia.
  - intros _. exists (c, r), (c - 1, r), [(c - 2, r)].
    split; [reflexivity |]. cbn. f_equal; lia.
Qed.

Lemma motion_step (g : SnakeGame) (tape : list Z) (g' : SnakeGame)
      (rest : list Z) :
  invariant g -> motion_invariant g ->
  step_snake g tape = Returns g' rest -> motion_invariant g'.
Proof.
  intros Hinv [Hd Hn Hrev Hch Hhead] H.
  apply step_snake_cases in H.
  destruct H as (nh & Hnh & Ed & En & _ & Hcase).
  apply new_head_of_spec in Hnh. destruct Hnh as (h & body & Hsnake & ->).
  assert (Hbody : exists n body', body = n :: body').
  { pose proof (inv_length g Hinv) as Hlen.
    pose proof (inv_score g Hinv) as Hsc.
    rewrite Hsnake in Hlen.
    destruct body as [| n body']; [cbn [length Z.of_nat] in Hlen; lia |].
    eauto. }
  destruct Hbody as (n & body' & ->).
  pose proof (adjacent_step h (next_direction g) Hn) as Hadj.
  destruct Hcase as
    [ _ _ Eo Es _ _ _ _
    | _ _ _ _ Eo Es _ _ _
    | _ _ _ _ Eo Es _ _ _ _ ].
  - split; rewrite ?Ed, ?En, ?Es; auto.
    + now apply is_unit_not_opposite.
    + intros Habs. congruence.
  - split; rewrite ?Ed, ?En, ?Es; auto.
    + now apply is_unit_not_opposite.
    + rewrite Hsnake. split; [exact Hadj | now rewrite <- Hsnake].
    + intros _. rewrite Hsnake. eauto.
  - rewrite Hsnake in Es.
    change (removelast (?x :: h :: n :: body'))
      with (x :: h :: removelast (n :: body')) in Es.
    split; rewrite ?Ed, ?En, ?Es; auto.
    + now apply is_unit_not_opposite.
    + split; [exact Hadj |].
      rewrite Hsnake in Hch. apply chain_removelast in Hch. exact Hch.
    + intros _. eauto.
Qed.

Lemma motion_handle (e : Event) (g : SnakeGame) (tape : list Z)
      (g' : SnakeGame) (rest : list Z) :
  invariant g -> motion_invariant g ->
  handle e g tape = Returns g' rest -> motion_invariant g'.
Proof.
  intros Hinv Hmo H. destruct e as [delta_time | key]; cbn [handle] in H.
  - apply on_update_cases in H.
    destruct H as [(_ & -> & _) | [(_ & _ & ->) | (_ & H)]].
    + exact Hmo.
    + destruct Hmo; split; assumption.
    + revert H. apply motion_step.
      * destruct Hinv; split; assumption.
      * destruct Hmo; split; assumption.
  - destruct (key_vector key) as [d |] eqn:Hkey.
    + rewrite (on_key_press_arrow g key d tape Hkey) in H.
      injection H as <- <-.
      destruct (game_over g); [exact Hmo |].
      destruct d as [dx dy]. cbn [fst snd].
      destruct (try_set_direction_cases g dx dy)
        as [(_ & ->) | (Hne & ->)]; [exact Hmo |].
      destruct Hmo as [Hd Hn Hrev Hch Hhead].
      split; cbn; auto.
      now apply (key_vector_unit key).
    + destruct key; try discriminate; cbn in H.
      * now apply motion_setup in H.
      * destruct (game_over g); injection H as <- <-; exact Hmo.
Qed.

Lemma reachable_motion (g : SnakeGame) : reachable g -> motion_invariant g.
Proof.
  induction 1 as [tape g rest H | g e tape g' rest Hr IH H].
  - now apply motion_setup in H.
  - apply (motion_handle e g tape g' rest); auto.
    now apply reachable_invariant.
Qed.

(** X6. In every reachable state all segments of the snake are cells of the
    grid, and the snake is a connected path: each segment is one unit step
    (up, down, left or right) away from the next. *)
Theorem snake_is_connected_path_in_grid (g : SnakeGame) :
  reachable g ->
  (forall p, In p (snake g) ->
             0 <= fst p < GRID_COLS /\ 0 <= snd p < GRID_ROWS) /\
  chain (snake g).
Proof.
  intros Hr. split.
  - intros p Hp. apply in_grid_iff.
    apply (inv_grid g (reachable_invariant g Hr) p Hp).
  - apply (mo_chain g (reachable_motion g Hr)).
Qed.

Lemma snake_is_connected_path_in_grid_witness :
  (forall p, In p (snake sample_game) ->
             0 <= fst p < GRID_COLS /\ 0 <= snd p < GRID_ROWS) /\
  chain (snake sample_game).
Proof.
  apply (snake_is_connected_path_in_grid sample_game).
  apply (reachable_setup [10; 10; 20; 20] sample_game []).
  vm_compute. reflexivity.
Defined.

(** X7. In every reachable state the committed and the pending direction are
    unit vectors and the pending one is not the reverse of the committed
    one; while the game runs the head is one committed step ahead of the
    second segment, so the next step never enters the second segment. *)
Theorem snake_never_reverses (g : SnakeGame) :
  reachable g ->
  is_unit (direction g) /\ is_unit (next_direction g) /\
  next_direction g <> opposite (direction g) /\
  (game_over g = false ->
   forall h n body nh,
     snake g = h :: n :: body -> new_head_of g = Some nh -> nh <> n).
Proof.
  intros Hr. destruct (reachable_motion g Hr) as [Hd Hn Hrev Hch Hhead].
  repeat (split; [assumption |]).
  intros Hrun h n body nh Hsnake Hnh Heq.
  destruct (Hhead Hrun) as (h' & n' & body' & Hs' & Hh).
  rewrite Hsnake in Hs'. injection Hs' as <- <- <-.
  apply new_head_of_spec in Hnh.
  destruct Hnh as (h'' & body'' & Hs'' & Hnh).
  rewrite Hsnake in Hs''. injection Hs'' as <- <-.
  apply Hrev. unfold opposite.
  destruct (next_direction g) as [dx dy], (direction g) as [cx cy],
           n as [nc nr], h as [hc hr].
  cbn [fst snd] in *. subst nh.
  injection Heq as E1 E2. injection Hh as E3 E4. f_equal; lia.
Qed.

Lemma snake_never_reverses_witness :
  is_unit (direction sample_game) /\ is_unit (next_direction sample_game) /\
  next_direction sample_game <> opposite (direction sample_game) /\
  (game_over sample_game = false ->
   forall h n body nh,
     snake sample_game = h :: n :: body ->
     new_head_of sample_game = Some nh -> nh <> n).
Proof.
  apply (snake_never_reverses sample_game).
  apply (reachable_setup [10; 10; 20; 20] sample_game []).
  vm_compute. reflexivity.
Defined.

(** ** setup *)

Lemma fresh_setup (g : SnakeGame) (tape : list Z) (g' : SnakeGame)
      (rest : list Z) :
  setup g tape = Returns g' rest -> fresh g'.
Proof.
  intros H. apply setup_spec in H.
  destruct H as (c & r & Hc & Hr & Hsnake & _ & _ & Ho & Hd & Hn & _).
  exists c, r. rewrite Hn. repeat (split; [assumption |]).
  split; [left; reflexivity | discriminate].
Qed.

Lemma fresh_press (g : SnakeGame) (key : Key) (tape : list Z)
      (g' : SnakeGame) (rest : list Z) :
  fresh g -> on_key_press g key tape = Returns g' rest -> fresh g'.
Proof.
  intros Hf H. destruct (key_vector key) as [d |] eqn:Hkey.
  - rewrite (on_key_press_arrow g key d tape Hkey) in H.
    injection H as <- <-.
    destruct (game_over g); [exact Hf |].
    destruct d as [dx dy]. cbn [fst snd].
    destruct (try_set_direction_cases g dx dy)
      as [(_ & ->) | (Hne & ->)]; [exact Hf |].
    destruct Hf as (c & r & Hc & Hr & Hsnake & Ho & Hd & Hn & Hl).
    exists c, r. cbn. repeat (split; [assumption |]).
    split; [now apply (key_vector_unit key) |].
    rewrite Hd in Hne. exact Hne.
  - destruct key; try discriminate; cbn in H.
    + now apply fresh_setup in H.
    + destruct (game_over g); injection H as <- <-; exact Hf.
Qed.

Lemma fresh_step_safe (g : SnakeGame) (tape : list Z) (g' : SnakeGame)
      (rest : list Z) :
  fresh g -> step_snake g tape = Returns g' rest -> game_over g' = false.
Proof.
  intros (c & r & Hc & Hr & Hsnake & Ho & Hd & Hn & Hl) H.
  apply step_snake_cases in H.
  destruct H as (nh & Hnh & _ & _ & _ & Hcase).
  apply new_head_of_spec in Hnh. destruct Hnh as (h & body & Hs & Hnh).
  rewrite Hsnake in Hs. injection Hs as <- <-. cbn [fst snd] in Hnh.
  destruct Hcase as [Hhit | | ]; try congruence.
  exfalso. change GRID_COLS with 40 in Hc. change GRID_ROWS with 27 in Hr.
  destruct Hhit as [Hout | Hin].
  - assert (Hg : in_grid nh = true).
    { apply in_grid_iff. change GRID_COLS with 40. change GRID_ROWS with 27.
      subst nh.
      destruct Hn as [-> | [-> | [-> | ->]]]; cbn [fst snd]; lia. }
    congruence.
  - rewrite Hsnake in Hin. subst nh.
    destruct Hn as [E | [E | [E | E]]]; rewrite E in *; cbn in Hin;
      try congruence;
      repeat (destruct Hin as [Hin | Hin]; [injection Hin; lia |]);
      exact Hin.
Qed.

(** X8. [setup] leaves clearance around the new snake: after a reset,
    whatever keys are pressed before the first tick, the first step does not
    end the game. *)
Theorem first_step_after_setup_is_safe
        (g0 : SnakeGame) (tape0 : list Z) (g : SnakeGame) (rest0 : list Z) :
  setup g0 tape0 = Returns g rest0 ->
  forall keys tape1 g1 rest1,
    run (map Press keys) g tape1 = Returns g1 rest1 ->
    forall tape2 g2 rest2,
      step_snake g1 tape2 = Returns g2 rest2 -> game_over g2 = false.
Proof.
  intros Hs keys. apply fresh_setup in Hs. revert g Hs.
  induction keys as [| key keys IH]; intros g Hf tape1 g1 rest1 Hrun.
  - injection Hrun as <- <-. intros tape2 g2 rest2.
    now apply fresh_step_safe.
  - cbn [map run handle] in Hrun. unfold bind in Hrun.
    destruct (on_key_press g key tape1) as [g' rest' | |] eqn:Hk;
      try discriminate.
    apply (IH g' (fresh_press g key tape1 g' rest' Hf Hk) rest' g1 rest1).
    exact Hrun.
Qed.

Lemma first_step_after_setup_is_safe_witness :
  run (map Press [KeyUp; KeyLeft]) sample_game []
  = Returns (set_next_direction sample_game (0, 1)) [] /\
  forall tape2 g2 rest2,
    step_snake (set_next_direction sample_game (0, 1)) tape2
    = Returns g2 rest2 ->
    game_over g2 = false.
Proof.
  split; [vm_compute; reflexivity |].
  refine (first_step_after_setup_is_safe
            init [10; 10; 20; 20] sample_game [] _
            [KeyUp; KeyLeft] [] (set_next_direction sample_game (0, 1)) [] _);
    vm_compute; reflexivity.
Defined.

Lemma setup_from_init (g : SnakeGame) (tape : list Z) :
  setup g tape = setup init tape.
Proof.
  unfold setup, spawn_food, bind, randrange, ret.
  destruct tape as [| c0 [| r0 tape']]; try reflexivity.
  cbn [snake].
  destruct (random_grid_position _ tape'); reflexivity.
Qed.

(** X9. A reset fully supersedes the prior state: what [setup] returns
    depends on the draws only, not on the state it is called on. *)
Theorem setup_ignores_prior_state (g1 g2 : SnakeGame) (tape : list Z) :
  setup g1 tape = setup g2 tape.
Proof.
  rewrite (setup_from_init g1 tape), (setup_from_init g2 tape).
  reflexivity.
Qed.

(** ** Food, score and level along the events *)

(** What an event other than the restart key does to food and score. *)
Lemma handle_eats_or_keeps
        (e : Event) (g : SnakeGame) (tape : list Z)
        (g' : SnakeGame) (rest : list Z) :
  is_reset e = false -> handle e g tape = Returns g' rest ->
  (food g' = food g /\ score g' = score g) \/
  (score g' = score g + 1 /\ snake g' = food g :: snake g /\
   food g' <> food g /\ ~ In (food g') (snake g')).
Proof.
  intros Hr H. destruct e as [delta_time | key]; cbn [handle] in H.
  - apply on_update_cases in H.
    destruct H as [(_ & -> & _) | [(_ & _ & ->) | (_ & H)]]; [auto | auto |].
    apply step_snake_cases in H.
    destruct H as (nh & _ & _ & _ & _ & Hcase).
    cbn [snake food score set_time_since_move] in Hcase.
    destruct Hcase as
      [ _ _ _ _ Ef Esc _ _
      | _ _ Heat Hrgp _ Es Esc _ _
      | _ _ _ _ _ _ Ef Esc _ _ ];
      cbn [snake food score set_time_since_move] in *; auto.
    right. subst nh.
    apply random_grid_position_sound in Hrgp.
    destruct Hrgp as (_ & Hfree & _).
    repeat split; auto.
    + intros E. apply Hfree. rewrite E. now left.
    + now rewrite Es.
  - left. destruct (key_vector key) as [d |] eqn:Hkey.
    + rewrite (on_key_press_arrow g key d tape Hkey) in H.
      injection H as <- <-.
      destruct (game_over g); [auto |].
      destruct (try_set_direction_cases g (fst d) (snd d))
        as [(_ & ->) | (_ & ->)]; auto.
    + destruct key; try discriminate; cbn in H.
      destruct (game_over g); injection H as <- <-; auto.
Qed.

(** X10. An event other than the restart key either leaves food and score as
    they were, or the snake has just eaten: the score is one higher, the old
    food cell is the new head, and the food has moved to a different cell,
    off the grown snake. *)
Theorem food_moves_only_when_eaten
        (e : Event) (g : SnakeGame) (tape : list Z)
        (g' : SnakeGame) (rest : list Z) :
  is_reset e = false -> handle e g tape = Returns g' rest ->
  (food g' = food g /\ score g' = score g) \/
  (score g' = score g + 1 /\ snake g' = food g :: snake g /\
   food g' <> food g /\ ~ In (food g') (snake g')).
Proof.
  intros Hr H.
  destruct (handle_eats_or_keeps e g tape g' rest Hr H) as [Hkeep | Hate].
  - left. exact Hkeep.
  - right. exact Hate.
Qed.

Lemma food_moves_only_when_eaten_witness :
  exists g',
    handle (Frame 0.25%float) four_points_game [20; 20] = Returns g' [] /\
    ((food g' = food four_points_game /\ score g' = score four_points_game) \/
     (score g' = score four_points_game + 1 /\
      snake g' = food four_points_game :: snake four_points_game /\
      food g' <> food four_points_game /\ ~ In (food g') (snake g'))).
Proof.
  eexists. split; [vm_compute; reflexivity |].
  apply (food_moves_only_when_eaten (Frame 0.25%float) four_points_game
                                    [20; 20] _ []);
    vm_compute; reflexivity.
Defined.

(** X11. The snake never fills the grid: in every reachable state the food
    occupies a cell of its own, so the snake has at most
    [GRID_COLS * GRID_ROWS - 1] segments, the score is between 0 and
    [GRID_COLS * GRID_ROWS - 4] = 1076, and the level between 1 and 216. *)
Theorem score_bounded_by_grid (g : SnakeGame) :
  reachable g ->
  Z.of_nat (length (snake g)) <= GRID_COLS * GRID_ROWS - 1 /\
  0 <= score g <= GRID_COLS * GRID_ROWS - 4 /\
  1 <= level g <= 216.
Proof.
  intros Hr. pose proof (reachable_invariant g Hr) as Hinv.
  assert (L : (length (food g :: snake g) <= length all_cells)%nat).
  { apply NoDup_incl_length.
    - constructor; [apply (inv_food g Hinv) | apply (inv_nodup g Hinv)].
    - intros p [<- | Hp]; apply all_cells_In;
        [apply (inv_food_grid g Hinv) | apply (inv_grid g Hinv p Hp)]. }
  assert (E : length all_cells = 1080%nat) by (vm_compute; reflexivity).
  rewrite E in L. cbn [length] in L.
  pose proof (inv_length g Hinv) as Hlen.
  pose proof (inv_score g Hinv) as Hsc.
  rewrite (inv_level g Hinv).
  change (GRID_COLS * GRID_ROWS) with 1080.
  assert (0 <= score g / 5) by (apply Z.div_pos; lia).
  assert (score g / 5 <= 1076 / 5) by (apply Z.div_le_mono; lia).
  change (1076 / 5) with 215 in *. lia.
Qed.

Lemma score_bounded_by_grid_witness :
  Z.of_nat (length (snake sample_game)) <= GRID_COLS * GRID_ROWS - 1 /\
  0 <= score sample_game <= GRID_COLS * GRID_ROWS - 4 /\
  1 <= level sample_game <= 216.
Proof.
  apply (score_bounded_by_grid sample_game).
  apply (reachable_setup [10; 10; 20; 20] sample_game []).
  vm_compute. reflexivity.
Defined.

Lemma interval_at_schedule (lvl : Z) :
  1 <= lvl <= MAX_LEVEL ->
  (lvl < 8 ->
   (interval_at (lvl + 1) <? interval_at lvl)%float = true /\
   (MOVE_INTERVAL_MIN <? interval_at lvl)%float = true) /\
  (8 <= lvl -> interval_at lvl = MOVE_INTERVAL_MIN).
Proof.
  intros H.
  assert (T : forallb
                (fun l =>
                   if l <? 8 then
                     PrimFloat.ltb (interval_at (l + 1)) (interval_at l)
                     && PrimFloat.ltb MOVE_INTERVAL_MIN (interval_at l)
                   else
                     negb (PrimFloat.ltb
                             MOVE_INTERVAL_MIN
                             (py_min (MOVE_INTERVAL_START
                                      - float_of_int (l - 1) * 0.02)%float
                                     MOVE_INTERVAL_START)))
                levels = true) by (vm_compute; reflexivity).
  rewrite forallb_forall in T. specialize (T lvl (levels_In lvl H)).
  split.
  - intros Hlt. apply Z.ltb_lt in Hlt. rewrite Hlt in T.
    now apply andb_true_iff in T.
  - intros Hge. apply Z.ltb_ge in Hge. rewrite Hge in T.
    apply negb_true_iff in T.
    unfold interval_at, clamp, py_max. now rewrite T.
Qed.

(** X12. The speed schedule, in binary64 arithmetic: in a reachable state
    with fewer than 35 points the interval is strictly above the minimum
    and one more level would make it strictly shorter; from 35 points
    (level 8) on the interval is exactly [MOVE_INTERVAL_MIN]. *)
Theorem speed_schedule (g : SnakeGame) :
  reachable g ->
  (score g < 35 ->
   (MOVE_INTERVAL_MIN <? move_interval g)%float = true /\
   (interval_at (level g + 1) <? move_interval g)%float = true) /\
  (35 <= score g -> move_interval g = MOVE_INTERVAL_MIN).
Proof.
  intros Hr. pose proof (reachable_invariant g Hr) as Hinv.
  pose proof (level_bounds g Hinv) as Hlvl.
  pose proof (inv_level g Hinv) as El.
  pose proof (inv_score g Hinv) as Hsc.
  destruct (interval_at_schedule (level g) Hlvl) as [Hlow Hhigh].
  rewrite (inv_interval g Hinv). split.
  - intros Hs.
    assert (score g / 5 < 7) by (apply Z.div_lt_upper_bound; lia).
    assert (Hl : level g < 8) by lia.
    destruct (Hlow Hl). auto.
  - intros Hs.
    assert (35 / 5 <= score g / 5) by (apply Z.div_le_mono; lia).
    change (35 / 5) with 7 in *. apply Hhigh. lia.
Qed.

Lemma speed_schedule_witness :
  (score sample_game < 35 ->
   (MOVE_INTERVAL_MIN <? move_interval sample_game)%float = true /\
   (interval_at (level sample_game + 1) <? move_interval sample_game)%float
   = true) /\
  (35 <= score sample_game -> move_interval sample_game = MOVE_INTERVAL_MIN).
Proof.
  apply (speed_schedule sample_game).
  apply (reachable_setup [10; 10; 20; 20] sample_game []).
  vm_compute. reflexivity.
Defined.

(** X13. In a reachable state an event other than the restart key raises the
    score by at most one and the level by at most one, and lowers
    neither. *)
Theorem score_and_level_rise_by_at_most_one
        (e : Event) (g : SnakeGame) (tape : list Z)
        (g' : SnakeGame) (rest : list Z) :
  reachable g -> is_reset e = false -> handle e g tape = Returns g' rest ->
  score g <= score g' <= score g + 1 /\ level g <= level g' <= level g + 1.
Proof.
  intros Hr He H.
  pose proof (inv_level g (reachable_invariant g Hr)) as El.
  pose proof (inv_level g' (reachable_invariant g'
                (reachable_event g e tape g' rest Hr H))) as El'.
  assert (Hs : score g <= score g' <= score g + 1).
  { destruct (handle_eats_or_keeps e g tape g' rest He H)
      as [(_ & E) | (E & _)]; lia. }
  split; [exact Hs |].
  pose proof (Z.div_le_mono (score g) (score g') 5 ltac:(lia) ltac:(lia)).
  pose proof (Z.div_le_mono (score g') (score g + 1) 5 ltac:(lia) ltac:(lia)).
  assert ((score g + 1) / 5 <= score g / 5 + 1).
  { pose proof (Z.div_mod (score g + 1) 5 ltac:(lia)).
    pose proof (Z.div_mod (score g) 5 ltac:(lia)).
    pose proof (Z.mod_pos_bound (score g + 1) 5 ltac:(lia)).
    pose proof (Z.mod_pos_bound (score g) 5 ltac:(lia)). lia. }
  lia.
Qed.

Lemma score_and_level_rise_by_at_most_one_witness :
  exists g',
    handle (Frame 0.25%float) sample_game [] = Returns g' [] /\
    score sample_game <= score g' <= score sample_game + 1 /\
    level sample_game <= level g' <= level sample_game + 1.
Proof.
  eexists. split; [vm_compute; reflexivity |].
  apply (score_and_level_rise_by_at_most_one
           (Frame 0.25%float) sample_game [] _ []).
  - apply (reachable_setup [10; 10; 20; 20] sample_game []).
    vm_compute. reflexivity.
  - reflexivity.
  - vm_compute. reflexivity.
Defined.

(** ** More on the retry loop *)

(** X14. What [random_grid_position] returns is the first drawn cell that is
    not excluded: every cell drawn before it is excluded, each round reads
    exactly two draws, and the rest of the tape is left unread. *)
Theorem random_grid_position_returns_first_free
        (excluded : list Position) (tape : list Z)
        (pos : Position) (rest : list Z) :
  random_grid_position excluded tape = Returns pos rest ->
  exists skipped,
    cells_of tape = skipped ++ pos :: cells_of rest /\
    (forall cell, In cell skipped -> In cell excluded) /\
    ~ In pos excluded /\
    exists read, tape = read ++ rest /\
                 length read = (2 * (length skipped + 1))%nat.
Proof.
  revert tape pos rest. fix IH 1.
  intros [| c [| r tape]] pos rest;
    cbn [random_grid_position cells_of]; try discriminate.
  pose proof (drawn_cell_in_grid c r) as Hg.
  apply in_grid_iff in Hg. destruct Hg as [_ Hrow].
  destruct (accepts excluded _) eqn:Hacc.
  - intros E. injection E as <- <-.
    exists []. split; [reflexivity |]. split; [intros cell [] |].
    split; [now apply (accepts_iff excluded _ Hrow) |].
    exists [c; r]. split; reflexivity.
  - intros E. destruct (IH tape pos rest E)
      as (skipped & Hcells & Hskip & Hfree & read & Htape & Hlen).
    exists ((in_range 0 GRID_COLS c, in_range 0 GRID_ROWS r) :: skipped).
    split; [cbn [app]; now rewrite Hcells |].
    split.
    + intros cell [<- | Hin]; [| now apply Hskip].
      destruct (pos_in (in_range 0 GRID_COLS c, in_range 0 GRID_ROWS r)
                       excluded) eqn:Hin; [now apply pos_in_In |].
      apply pos_in_not_In in Hin.
      pose proof (proj2 (accepts_iff excluded _ Hrow) Hin). congruence.
    + split; [exact Hfree |].
      exists (c :: r :: read). split; [cbn [app]; now rewrite Htape |].
      cbn [length]. lia.
Qed.

Lemma random_grid_position_returns_first_free_witness :
  exists skipped,
    cells_of [12; 11; 7; 30; 1; 1] = skipped ++ (7, 3) :: cells_of [1; 1] /\
    (forall cell, In cell skipped -> In cell (snake sample_game)) /\
    ~ In (7, 3) (snake sample_game) /\
    exists read, [12; 11; 7; 30; 1; 1] = read ++ [1; 1] /\
                 length read = (2 * (length skipped + 1))%nat.
Proof.
  apply (random_grid_position_returns_first_free
           (snake sample_game) [12; 11; 7; 30; 1; 1] (7, 3) [1; 1]).
  vm_compute. reflexivity.
Defined.

(** X15. The test against the UI boundary never decides: on any two draws
    the loop accepts the drawn cell exactly when it is not excluded, and
    every free cell of the grid is returned on the draws that name it. *)
Theorem ui_strip_test_never_rejects
        (excluded : list Position) (c r : Z) (rest : list Z) :
  random_grid_position excluded (c :: r :: rest)
  = (if pos_in (in_range 0 GRID_COLS c, in_range 0 GRID_ROWS r) excluded
     then random_grid_position excluded rest
     else Returns (in_range 0 GRID_COLS c, in_range 0 GRID_ROWS r) rest)
  /\
  (forall pos, in_grid pos = true -> ~ In pos excluded ->
               random_grid_position excluded (fst pos :: snd pos :: rest)
               = Returns pos rest).
Proof.
  assert (A : forall c' r',
             accepts excluded
                     (in_range 0 GRID_COLS c', in_range 0 GRID_ROWS r')
             = negb (pos_in (in_range 0 GRID_COLS c',
                             in_range 0 GRID_ROWS r') excluded)).
  { intros c' r'. unfold accepts.
    rewrite rows_below_ui_boundary; [apply andb_true_r |].
    pose proof (drawn_cell_in_grid c' r') as Hg.
    apply in_grid_iff in Hg. tauto. }
  split.
  - cbn [random_grid_position]. rewrite A.
    now destruct (pos_in _ excluded).
  - intros [pc pr] Hg Hfree. cbn [fst snd random_grid_position].
    apply in_grid_iff in Hg. cbn [fst snd] in Hg.
    assert (Ec : in_range 0 GRID_COLS pc = pc)
      by (unfold in_range; rewrite Z.sub_0_r, Z.mod_small; lia).
    assert (Er : in_range 0 GRID_ROWS pr = pr)
      by (unfold in_range; rewrite Z.sub_0_r, Z.mod_small; lia).
    rewrite A, Ec, Er.
    apply pos_in_not_In in Hfree. now rewrite Hfree.
Qed.

(** ** The frame timer *)

(** X16. A frame moves the snake by at most one cell, however long
    [delta_time] is.  When the game is over or the accumulated time stays
    below the interval, [on_update] leaves snake and game-over flag alone
    and reads no draw.  Otherwise exactly one step is taken: the accumulated
    time restarts from 0.0 (the overshoot is dropped) and the snake either
    stays with the game now over, or has the new head in front, with the
    tail dropped unless the food was eaten. *)
Theorem frame_takes_at_most_one_step
        (g : SnakeGame) (delta_time : float) (tape : list Z)
        (g' : SnakeGame) (rest : list Z) :
  on_update g delta_time tape = Returns g' rest ->
  (game_over g = true \/
   (move_interval g <=? time_since_move g + delta_time)%float = false ->
   snake g' = snake g /\ game_over g' = game_over g /\ rest = tape) /\
  (game_over g = false ->
   (move_interval g <=? time_since_move g + delta_time)%float = true ->
   time_since_move g' = 0.0%float /\
   exists nh, new_head_of g = Some nh /\
              ((snake g' = snake g /\ game_over g' = true) \/
               snake g' = nh :: snake g \/
               snake g' = removelast (nh :: snake g))).
Proof.
  unfold on_update. destruct (game_over g) eqn:Ho.
  - intros H. injection H as <- <-. split; [auto | discriminate].
  - cbn [move_interval time_since_move set_time_since_move].
    destruct (PrimFloat.leb _ _) eqn:Hfire.
    + intros H. split; [intros [Habs | Habs]; discriminate |].
      intros _ _.
      apply step_snake_cases in H.
      destruct H as (nh & Hnh & _ & _ & Et & Hcase).
      cbn [snake time_since_move set_time_since_move] in *.
      split; [exact Et |]. exists nh. split; [exact Hnh |].
      destruct Hcase as
        [ _ _ Eo Es _ _ _ _
        | _ _ _ _ _ Es _ _ _
        | _ _ _ _ _ Es _ _ _ _ ];
        cbn [snake set_time_since_move] in Es; auto.
    + intros H. injection H as <- <-.
      split; [auto | discriminate].
Qed.

Lemma frame_takes_at_most_one_step_witness :
  exists g',
    on_update sample_game 7.5%float [] = Returns g' [] /\
    (game_over sample_game = true \/
     (move_interval sample_game <=? time_since_move sample_game + 7.5)%float
     = false ->
     snake g' = snake sample_game /\ game_over g' = game_over sample_game /\
     [] = @nil Z) /\
    (game_over sample_game = false ->
     (move_interval sample_game <=? time_since_move sample_game + 7.5)%float
     = true ->
     time_since_move g' = 0.0%float /\
     exists nh, new_head_of sample_game = Some nh /\
                ((snake g' = snake sample_game /\ game_over g' = true) \/
                 snake g' = nh :: snake sample_game \/
                 snake g' = removelast (nh :: snake sample_game))).
Proof.
  eexists. split; [vm_compute; reflexivity |].
  apply (frame_takes_at_most_one_step sample_game 7.5%float [] _ []).
  vm_compute. reflexivity.
Defined.

(** ** Rendering *)

(** Along one axis of the grid the float arithmetic of the renderer is
    exact: the centre of cell [k] is [20 k + 10] and the sides of its
    rectangle are [20 k + 1] and [20 k + 19]. *)
Lemma cell_coordinates_exact (k : Z) :
  0 <= k < GRID_COLS ->
  let x := (float_of_int (k * CELL_SIZE)
            + float_of_int CELL_SIZE / float_of_int 2)%float in
  let half := (float_of_int (CELL_SIZE - 2) / float_of_int 2)%float in
  x = float_of_int (k * CELL_SIZE + 10) /\
  (x - half)%float = float_of_int (k * CELL_SIZE + 1) /\
  (x + half)%float = float_of_int (k * CELL_SIZE + CELL_SIZE - 1).
Proof.
  intros H.
  assert (Hin : In k (zrange 0 40)).
  { apply zrange_In. change GRID_COLS with 40 in H. lia. }
  vm_compute in Hin.
  repeat (destruct Hin as [<- | Hin];
          [vm_compute; repeat split; reflexivity |]).
  contradiction.
Qed.

Lemma rows_within_cols (r : Z) : 0 <= r < GRID_ROWS -> 0 <= r < GRID_COLS.
Proof. change GRID_ROWS with 27. change GRID_COLS with 40. lia. Qed.

Lemma draw_segment_exact (p : Position) (i : nat) :
  in_grid p = true ->
  draw_segments i [p]
  = [cell_rectangle p (if Nat.eqb i 0 then CYAN else DARK_CYAN)].
Proof.
  intros Hg. apply in_grid_iff in Hg. destruct p as [col row].
  cbn [fst snd] in Hg. destruct Hg as [Hc Hr].
  destruct (cell_coordinates_exact col Hc) as (_ & Hl & Hrt).
  destruct (cell_coordinates_exact row (rows_within_cols row Hr))
    as (_ & Hb & Ht).
  cbn zeta in Hl, Hrt, Hb, Ht.
  unfold draw_segments, grid_to_screen_center, cell_rectangle.
  cbn [fst snd]. now rewrite Hl, Hrt, Hb, Ht.
Qed.

Lemma draw_segments_cons (p : Position) (i : nat) (cells : list Position) :
  draw_segments i (p :: cells)
  = draw_segments i [p] ++ draw_segments (S i) cells.
Proof. destruct p as [col row]. reflexivity. Qed.

Lemma draw_segments_body (cells : list Position) :
  forall i,
    (forall p, In p cells -> in_grid p = true) ->
    draw_segments (S i) cells
    = map (fun p => cell_rectangle p DARK_CYAN) cells.
Proof.
  induction cells as [| p cells IH]; intros i Hg; [reflexivity |].
  rewrite draw_segments_cons, draw_segment_exact, (IH (S i)).
  - reflexivity.
  - intros q Hq. apply Hg. now right.
  - apply Hg. now left.
Qed.

Lemma draw_segments_length (cells : list Position) :
  forall i, length (draw_segments i cells) = length cells /\
            forallb is_rectangle (draw_segments i cells) = true.
Proof.
  induction cells as [| [col row] cells IH]; intros i; [split; reflexivity |].
  destruct (IH (S i)) as [Hl Hr].
  split; cbn [draw_segments grid_to_screen_center length forallb
              is_rectangle andb]; [now rewrite Hl | exact Hr].
Qed.

Lemma grid_to_screen_center_cell (p : Position) :
  in_grid p = true ->
  grid_to_screen_center (fst p) (snd p)
  = (float_of_int (fst p * CELL_SIZE + 10),
     float_of_int (snd p * CELL_SIZE + 10)).
Proof.
  intros Hg. apply in_grid_iff in Hg. destruct Hg as [Hc Hr].
  destruct (cell_coordinates_exact (fst p) Hc) as (Hx & _).
  destruct (cell_coordinates_exact (snd p) (rows_within_cols _ Hr))
    as (Hy & _).
  cbn zeta in Hx, Hy.
  unfold grid_to_screen_center. now rewrite Hx, Hy.
Qed.

(** X17. For every cell of the grid the float arithmetic of
    [grid_to_screen_center] is exact: the centre of cell [(col, row)] is
    the point [(20 col + 10, 20 row + 10)]. *)
Theorem grid_to_screen_center_exact (col row : Z) :
  in_grid (col, row) = true ->
  grid_to_screen_center col row
  = (float_of_int (col * CELL_SIZE + 10), float_of_int (row * CELL_SIZE + 10)).
Proof.
  intros Hg.
  pose proof (grid_to_screen_center_cell (col, row) Hg) as E.
  cbn [fst snd] in E. exact E.
Qed.

Lemma grid_to_screen_center_exact_witness :
  grid_to_screen_center 39 26
  = (float_of_int (39 * CELL_SIZE + 10), float_of_int (26 * CELL_SIZE + 10)).
Proof.
  apply (grid_to_screen_center_exact 39 26). reflexivity.
Defined.

(** X18. What one frame draws in a reachable state: when the game is over no
    rectangle and no circle; otherwise exactly one circle (the food) and
    one rectangle per snake segment. *)
Theorem on_draw_shape_counts (g : SnakeGame) :
  reachable g ->
  length (filter is_rectangle (on_draw g))
  = (if game_over g then 0%nat else length (snake g)) /\
  length (filter is_circle (on_draw g))
  = (if game_over g then 0%nat else 1%nat).
Proof.
  intros _.
  unfold on_draw. destruct (game_over g); [split; reflexivity |].
  destruct (grid_to_screen_center _ _) as [fx fy].
  destruct (draw_segments_length (snake g) 0) as [Hl Hr].
  cbn [app filter is_rectangle is_circle].
  split.
  - rewrite <- Hl. f_equal.
    apply forallb_filter_id.  exact Hr.
  - cbn [length]. f_equal.
    assert (F : forall l, forallb is_rectangle l = true ->
                          filter is_circle l = []).
    { induction l as [| c l IH]; [reflexivity |].
      cbn [forallb filter]. intros H. apply andb_true_iff in H.
      destruct H as [Hc Hl']. destruct c; try discriminate.
      cbn [is_circle]. now apply IH. }
    now rewrite F.
Qed.

(** A running frame and the frame after the game has ended on the wall. *)
Lemma on_draw_shape_counts_witness :
  (length (filter is_rectangle (on_draw sample_game)) = 3%nat /\
   length (filter is_circle (on_draw sample_game)) = 1%nat) /\
  (length (filter is_rectangle (on_draw (set_game_over edge_game))) = 0%nat /\
   length (filter is_circle (on_draw (set_game_over edge_game))) = 0%nat).
Proof.
  split.
  - apply (on_draw_shape_counts sample_game).
    apply (reachable_setup [10; 10; 20; 20] sample_game []).
    vm_compute. reflexivity.
  - apply (on_draw_shape_counts (set_game_over edge_game)).
    apply (main_reachable
             [Frame 0.25%float; Frame 0.25%float; Frame 0.25%float]
             [35; 4; 20; 20] _ []).
    vm_compute. reflexivity.
Defined.

(** The frame of a running game, with the float arithmetic carried out. *)
Lemma on_draw_running (g : SnakeGame) :
  reachable g -> game_over g = false ->
  exists h body,
    snake g = h :: body /\
    on_draw g
    = [ Clear;
        DrawText ("Score: " ++ str (score g) ++ "   Level: " ++ str (level g))
                 (PyInt 10) (PyInt 570) WHITE 16 None;
        DrawLine 0 550 800 550 DARK_GRAY 2;
        DrawCircleFilled (float_of_int (fst (food g) * CELL_SIZE + 10))
                         (float_of_int (snd (food g) * CELL_SIZE + 10))
                         9.0%float LIME;
        cell_rectangle h CYAN ]
      ++ map (fun p => cell_rectangle p DARK_CYAN) body.
Proof.
  intros Hr Ho. pose proof (reachable_invariant g Hr) as Hinv.
  destruct (snake g) as [| h body] eqn:Hsnake;
    [exfalso; now apply (invariant_snake_nonempty g Hinv) |].
  exists h, body. split; [reflexivity |].
  unfold on_draw. rewrite Ho, Hsnake.
  rewrite (grid_to_screen_center_cell (food g) (inv_food_grid g Hinv)).
  rewrite draw_segments_cons, draw_segment_exact, draw_segments_body.
  - reflexivity.
  - intros p Hp. apply (inv_grid g Hinv). rewrite Hsnake. now right.
  - apply (inv_grid g Hinv). rewrite Hsnake. now left.
Qed.

(** X19. In a reachable state in which the game is not over, the frame is
    exactly: clear, the HUD text, the separator line, the food circle of
    radius 9 centred on its cell, a CYAN rectangle for the head and a
    DARK_CYAN rectangle for every other segment, each rectangle being its
    cell less a margin of one pixel, with exact integer corners. *)
Theorem on_draw_running_frame (g : SnakeGame) :
  reachable g -> game_over g = false ->
  exists h body,
    snake g = h :: body /\
    on_draw g
    = [ Clear;
        DrawText ("Score: " ++ str (score g) ++ "   Level: " ++ str (level g))
                 (PyInt 10) (PyInt 570) WHITE 16 None;
        DrawLine 0 550 800 550 DARK_GRAY 2;
        DrawCircleFilled (float_of_int (fst (food g) * CELL_SIZE + 10))
                         (float_of_int (snd (food g) * CELL_SIZE + 10))
                         9.0%float LIME;
        cell_rectangle h CYAN ]
      ++ map (fun p => cell_rectangle p DARK_CYAN) body.
Proof.
  intros Hr Ho.
  destruct (on_draw_running g Hr Ho) as (h & body & Hsnake & Hframe).
  exists h, body. split; [exact Hsnake | exact Hframe].
Qed.

Lemma on_draw_running_frame_witness :
  exists h body,
    snake sample_game = h :: body /\
    on_draw sample_game
    = [ Clear;
        DrawText ("Score: " ++ str (score sample_game)
                  ++ "   Level: " ++ str (level sample_game))
                 (PyInt 10) (PyInt 570) WHITE 16 None;
        DrawLine 0 550 800 550 DARK_GRAY 2;
        DrawCircleFilled
          (float_of_int (fst (food sample_game) * CELL_SIZE + 10))
          (float_of_int (snd (food sample_game) * CELL_SIZE + 10))
          9.0%float LIME;
        cell_rectangle h CYAN ]
      ++ map (fun p => cell_rectangle p DARK_CYAN) body.
Proof.
  apply (on_draw_running_frame sample_game).
  - apply (reachable_setup [10; 10; 20; 20] sample_game []).
    vm_compute. reflexivity.
  - reflexivity.
Defined.

Lemma cell_shapes_inside (p : Position) (color : Color) :
  in_grid p = true ->
  inside_play_area (cell_rectangle p color) = true /\
  inside_play_area
    (DrawCircleFilled (float_of_int (fst p * CELL_SIZE + 10))
                      (float_of_int (snd p * CELL_SIZE + 10))
                      9.0%float LIME) = true.
Proof.
  intros Hg.
  assert (T : forallb
                (fun q =>
                   inside_play_area (cell_rectangle q CYAN)
                   && inside_play_area
                        (DrawCircleFilled
                           (float_of_int (fst q * CELL_SIZE + 10))
                           (float_of_int (snd q * CELL_SIZE + 10))
                           9.0%float LIME))
                all_cells = true) by (vm_compute; reflexivity).
  rewrite forallb_forall in T.
  specialize (T p (all_cells_In p Hg)). apply andb_true_iff in T.
  exact T.
Qed.

(** X20. In every reachable state every rectangle and every circle of the
    frame lies strictly inside the play area: within the window and below
    the separator line of the HUD. *)
Theorem shapes_drawn_inside_play_area (g : SnakeGame) :
  reachable g -> forallb inside_play_area (on_draw g) = true.
Proof.
  intros Hr. pose proof (reachable_invariant g Hr) as Hinv.
  destruct (game_over g) eqn:Ho.
  - unfold on_draw. rewrite Ho. reflexivity.
  - destruct (on_draw_running g Hr Ho) as (h & body & Hsnake & ->).
    rewrite forallb_app. cbn [forallb].
    destruct (cell_shapes_inside (food g) LIME (inv_food_grid g Hinv))
      as [_ Hcircle].
    assert (Hh : in_grid h = true)
      by (apply (inv_grid g Hinv); rewrite Hsnake; now left).
    destruct (cell_shapes_inside h CYAN Hh) as [Hrect _].
    rewrite Hcircle, Hrect. cbn [inside_play_area andb].
    apply forallb_forall. intros c Hc. apply in_map_iff in Hc.
    destruct Hc as (p & <- & Hp).
    apply cell_shapes_inside, (inv_grid g Hinv). rewrite Hsnake. now right.
Qed.

Lemma shapes_drawn_inside_play_area_witness :
  forallb inside_play_area (on_draw sample_game) = true.
Proof.
  apply (shapes_drawn_inside_play_area sample_game).
  apply (reachable_setup [10; 10; 20; 20] sample_game []).
  vm_compute. reflexivity.
Defined.

(** ** Restart and starvation *)

(** X21. The restart key works in every state, game over or not, reachable
    or not: what it returns is a state that [main] reaches by its first
    [setup] on the same draws, so it is a running game with score 0,
    level 1, the starting interval and a zeroed timer. *)
Theorem restart_yields_start_state
        (g : SnakeGame) (tape : list Z) (g' : SnakeGame) (rest : list Z) :
  on_key_press g KeyR tape = Returns g' rest ->
  main [] tape = Returns g' rest /\ reachable g' /\
  game_over g' = false /\ score g' = 0 /\ level g' = 1 /\
  move_interval g' = MOVE_INTERVAL_START /\ time_since_move g' = 0.0%float.
Proof.
  cbn [on_key_press]. rewrite (setup_from_init g tape). intros H.
  split; [unfold main, bind; now rewrite H |].
  split; [now apply (reachable_setup tape g' rest) |].
  apply setup_spec in H.
  destruct H as (c & r & _ & _ & _ & Hsc & Hl & Ho & _ & _ & Hi & Ht & _).
  auto.
Qed.

Lemma restart_yields_start_state_witness :
  main [] [10; 10; 20; 20] = Returns sample_game [] /\
  reachable sample_game /\
  game_over sample_game = false /\ score sample_game = 0 /\
  level sample_game = 1 /\
  move_interval sample_game = MOVE_INTERVAL_START /\
  time_since_move sample_game = 0.0%float.
Proof.
  apply (restart_yields_start_state
           (set_game_over four_points_game) [10; 10; 20; 20] sample_game []).
  vm_compute. reflexivity.
Defined.

(** X23. Starvation: when every cell of the grid is excluded, the retry loop
    returns on no tape at all, however long. *)
Theorem random_grid_position_starves
        (excluded : list Position) (tape : list Z) :
  forallb (fun p => pos_in p excluded) all_cells = true ->
  random_grid_position excluded tape = Spinning.
Proof.
  intros H. rewrite forallb_forall in H.
  apply random_grid_position_spins.
  intros pos Hpos. apply pos_in_In, H, all_cells_In.
  now apply (cells_of_in_grid tape).
Qed.

Lemma random_grid_position_starves_witness :
  random_grid_position all_cells [3; 4; 5; 6; 7; 8] = Spinning.
Proof.
  apply (random_grid_position_starves all_cells [3; 4; 5; 6; 7; 8]).
  vm_compute. reflexivity.
Defined.

(** X24. The retry loop is never stuck: when a cell of the grid is not
    excluded, then whatever has been drawn so far, at most three further
    draws make [random_grid_position] return, and what it returns then is a
    cell of the grid that is not excluded. *)
Theorem retry_loop_can_always_return
        (excluded : list Position) (cell : Position) :
  in_grid cell = true -> ~ In cell excluded ->
  forall tape,
  exists more pos rest,
    (length more <= 3)%nat /\
    random_grid_position excluded (tape ++ more) = Returns pos rest /\
    in_grid pos = true /\ ~ In pos excluded.
Proof.
  intros Hg Hfree.
  assert (Hcell : forall rest,
             random_grid_position excluded (fst cell :: snd cell :: rest)
             = Returns cell rest).
  { intros rest. cbn [random_grid_position].
    apply in_grid_iff in Hg.
    assert (Ec : in_range 0 GRID_COLS (fst cell) = fst cell)
      by (unfold in_range; rewrite Z.sub_0_r, Z.mod_small; lia).
    assert (Er : in_range 0 GRID_ROWS (snd cell) = snd cell)
      by (unfold in_range; rewrite Z.sub_0_r, Z.mod_small; lia).
    rewrite Ec, Er. rewrite <- surjective_pairing.
    now rewrite (proj2 (accepts_iff excluded cell (proj2 Hg)) Hfree). }
  assert (Hsound : forall tape pos rest,
             random_grid_position excluded tape = Returns pos rest ->
             in_grid pos = true /\ ~ In pos excluded).
  { intros tape pos rest H.
    apply random_grid_position_sound in H. tauto. }
  fix IH 1. intros [| c [| r tape]].
  - exists [fst cell; snd cell], cell, [].
    split; [cbn; lia |]. split; [apply Hcell | auto].
  - cbn [app].
    destruct (random_grid_position excluded
                [c; snd cell; fst cell; snd cell]) as [pos rest | |] eqn:E.
    + exists [snd cell; fst cell; snd cell], pos, rest.
      split; [cbn; lia |]. split; [exact E | exact (Hsound _ _ _ E)].
    + exfalso. exact (random_grid_position_no_raise excluded _ e E).
    + exfalso.
      assert (Hround : forall c' r' rest',
                 random_grid_position excluded (c' :: r' :: rest')
                 = if accepts excluded
                        (in_range 0 GRID_COLS c', in_range 0 GRID_ROWS r')
                   then Returns
                          (in_range 0 GRID_COLS c', in_range 0 GRID_ROWS r')
                          rest'
                   else random_grid_position excluded rest')
        by reflexivity.
      rewrite Hround in E.
      destruct (accepts excluded _); [discriminate |].
      rewrite Hcell in E. discriminate.
  - cbn [app random_grid_position].
    destruct (accepts excluded _) eqn:Hacc.
    + exists [], (in_range 0 GRID_COLS c, in_range 0 GRID_ROWS r), tape.
      split; [cbn; lia |]. rewrite app_nil_r. split; [reflexivity |].
      apply (Hsound (c :: r :: tape) _ tape).
      cbn [random_grid_position]. now rewrite Hacc.
    + destruct (IH tape) as (more & pos & rest & Hlen & H & Hq).
      exists more, pos, rest. auto.
Qed.

Lemma retry_loop_can_always_return_witness :
  exists more pos rest,
    (length more <= 3)%nat /\
    random_grid_position (snake sample_game) ([12; 11; 11] ++ more)
    = Returns pos rest /\
    in_grid pos = true /\ ~ In pos (snake sample_game).
Proof.
  apply (retry_loop_can_always_return (snake sample_game) (7, 3)).
  - reflexivity.
  - vm_compute. intros [H | [H | [H | H]]]; try discriminate; exact H.
Defined.
